(** * lupdate, clang front end: candidate records and literal cleaning

    A shallow embedding of [src/linguist/lupdate/cpp_clang.h]:
    the record [TranslationRelatedStore] with its methods [isValid] and
    [callLocation], and the two [LupdatePrivate::cleanQuote] overloads.

    Text ([QString], [std::string], [llvm::StringRef]) is a sequence of
    characters with a code below 256, each read as the code point of that
    number.  The transcoding done by [QString::fromStdString] is the
    identity at that level, which is exact for 7-bit text, where UTF-8,
    Latin-1 and UTF-16 agree.  A null [QString] and an empty one are both
    the empty sequence ([QString] compares them equal). *)

From Stdlib Require Import ZArith List Ascii String Bool Lia.
From stdpp Require Import base decidable option list strings gmap.

Open Scope Z_scope.

(** ** Text *)

Abbreviation QString := (list ascii).
Abbreviation std_string := (list ascii).
Abbreviation StringRef := (list ascii).

(** A literal of the source, as a sequence of characters. *)
Definition qs (s : string) : list ascii := list_ascii_of_string s.

(** [QString::isEmpty], [std::string::empty], [StringRef::empty]. *)
Definition isEmpty (s : list ascii) : bool :=
  match s with
  | [] => true
  | _ :: _ => false
  end.

(** [QString::fromStdString]. *)
Definition fromStdString (s : std_string) : QString := s.

(** [QString::toStdString]. *)
Definition toStdString (s : QString) : std_string := s.

(** ** The alias manager (lupdate.h) *)

(** Modelled from the spec: [TrFunctionAliasManager] and its enumeration
    [TrFunction] are declared in lupdate.h, which is not among the
    sources.  Section 4.1 describes the lookup: a name resolves to a
    canonical kind, or to none.  The constructors are the enumerators that
    cpp_clang.h names in its case labels; [Function_unlisted] stands for
    any further enumerator of the table.  The lookup [trFunctionByName]
    itself is a parameter (the alias table is configuration): it answers
    with an enumerator, or with [None] for a name without entry. *)
Inductive TrFunction : Set :=
  | Function_Q_DECLARE_TR_FUNCTIONS
  | Function_tr
  | Function_trUtf8
  | Function_QT_TRANSLATE_N_NOOP
  | Function_QT_TRANSLATE_N_NOOP3
  | Function_translate
  | Function_QT_TRANSLATE_NOOP
  | Function_QT_TRANSLATE_NOOP_UTF8
  | Function_QT_TRANSLATE_NOOP3
  | Function_QT_TRANSLATE_NOOP3_UTF8
  | Function_QT_TRID_N_NOOP
  | Function_qtTrId
  | Function_QT_TRID_NOOP
  | Function_unlisted (tag : Z).

(** ** The front end (clang) *)

(** [clang::SourceLocation]: a raw encoding, 0 for the invalid location
    that the default constructor builds. *)
Record SourceLocation : Set := { getRawEncoding : Z }.

Definition SourceLocation_default : SourceLocation := {| getRawEncoding := 0 |}.

Definition isInvalid (l : SourceLocation) : bool := getRawEncoding l =? 0.

(** The arguments [Line] and [Col] of [translateFileLineCol] are
    [unsigned]: a [qint64] is converted modulo 2^32. *)
Definition to_unsigned (z : Z) : Z := z mod 2 ^ 32.

(** ** TranslationRelatedStore *)

Record TranslationRelatedStore : Type := {
  callType : QString;
  rawCode : QString;
  funcName : QString;
  locationCol : Z;
  contextArg : QString;
  contextRetrieved : QString;
  lupdateSource : QString;
  lupdateLocationFile : QString;
  lupdateLocationLine : Z;
  lupdateId : QString;
  lupdateSourceWhenId : QString;
  lupdateIdMetaData : QString;
  lupdateMagicMetaData : QString;
  lupdateAllMagicMetaData : gmap string string;
  lupdateComment : QString;
  lupdateExtraComment : QString;
  lupdatePlural : QString;
  sourceLocation : SourceLocation
}.

(** The record as its member initialisers build it. *)
Definition TranslationRelatedStore_default : TranslationRelatedStore := {|
  callType := [];
  rawCode := [];
  funcName := [];
  locationCol := -1;
  contextArg := [];
  contextRetrieved := [];
  lupdateSource := [];
  lupdateLocationFile := [];
  lupdateLocationLine := -1;
  lupdateId := [];
  lupdateSourceWhenId := [];
  lupdateIdMetaData := [];
  lupdateMagicMetaData := [];
  lupdateAllMagicMetaData := ∅;
  lupdateComment := [];
  lupdateExtraComment := [];
  lupdatePlural := [];
  sourceLocation := SourceLocation_default
|}.

(** Assignment to the member [sourceLocation]. *)
Definition set_sourceLocation (l : SourceLocation) (r : TranslationRelatedStore)
  : TranslationRelatedStore := {|
  callType := callType r;
  rawCode := rawCode r;
  funcName := funcName r;
  locationCol := locationCol r;
  contextArg := contextArg r;
  contextRetrieved := contextRetrieved r;
  lupdateSource := lupdateSource r;
  lupdateLocationFile := lupdateLocationFile r;
  lupdateLocationLine := lupdateLocationLine r;
  lupdateId := lupdateId r;
  lupdateSourceWhenId := lupdateSourceWhenId r;
  lupdateIdMetaData := lupdateIdMetaData r;
  lupdateMagicMetaData := lupdateMagicMetaData r;
  lupdateAllMagicMetaData := lupdateAllMagicMetaData r;
  lupdateComment := lupdateComment r;
  lupdateExtraComment := lupdateExtraComment r;
  lupdatePlural := lupdatePlural r;
  sourceLocation := l
|}.

Section Validity.

(** The global [trFunctionAliasManager], through its lookup. *)
Variable trFunctionByName : QString -> option TrFunction.

(** [TranslationRelatedStore::isValid].  Each [return false] of the
    switch is a [false] branch; a [break] reaches the final [return]. *)
Definition isValid (r : TranslationRelatedStore) : bool :=
  let location :=
    negb (isEmpty (lupdateLocationFile r))
    && (lupdateLocationLine r >? -1) && (locationCol r >? -1) in
  match trFunctionByName (funcName r) with
  | Some Function_Q_DECLARE_TR_FUNCTIONS =>
      if isEmpty (contextArg r) then false else location
  | Some Function_tr
  | Some Function_trUtf8 =>
      if isEmpty (lupdateSource r) then false else location
  | Some Function_QT_TRANSLATE_N_NOOP
  | Some Function_QT_TRANSLATE_N_NOOP3
  | Some Function_translate
  | Some Function_QT_TRANSLATE_NOOP
  | Some Function_QT_TRANSLATE_NOOP_UTF8
  | Some Function_QT_TRANSLATE_NOOP3
  | Some Function_QT_TRANSLATE_NOOP3_UTF8 =>
      if isEmpty (contextArg r) || isEmpty (lupdateSource r) then false
      else location
  | Some Function_QT_TRID_N_NOOP
  | Some Function_qtTrId
  | Some Function_QT_TRID_NOOP =>
      if isEmpty (lupdateId r) then false else location
  | _ =>
      if bool_decide (funcName r = qs "TRANSLATOR") && isEmpty (lupdateComment r)
      then false
      else location
  end.

(** *** The validity rule in the words of the specification *)

Inductive CallKind : Set :=
  | DeclarativeContext   (* Q_DECLARE_TR_FUNCTIONS *)
  | PlainText            (* tr, trUtf8 *)
  | ContextQualified     (* translate, the QT_TRANSLATE_NOOP family *)
  | IdentifierBased      (* qtTrId, the QT_TRID_NOOP family *)
  | Annotation           (* a TRANSLATOR comment *)
  | Unrecognized.

(** The kind a function name resolves to: through the alias table, and
    for a name the table does not classify, the TRANSLATOR marker. *)
Definition kindOfFunction (f : option TrFunction) : option CallKind :=
  match f with
  | Some Function_Q_DECLARE_TR_FUNCTIONS => Some DeclarativeContext
  | Some Function_tr | Some Function_trUtf8 => Some PlainText
  | Some Function_translate
  | Some Function_QT_TRANSLATE_NOOP | Some Function_QT_TRANSLATE_NOOP_UTF8
  | Some Function_QT_TRANSLATE_NOOP3 | Some Function_QT_TRANSLATE_NOOP3_UTF8
  | Some Function_QT_TRANSLATE_N_NOOP | Some Function_QT_TRANSLATE_N_NOOP3 =>
      Some ContextQualified
  | Some Function_qtTrId
  | Some Function_QT_TRID_NOOP | Some Function_QT_TRID_N_NOOP =>
      Some IdentifierBased
  | Some (Function_unlisted _) | None => None
  end.

Definition callKind (r : TranslationRelatedStore) : CallKind :=
  match kindOfFunction (trFunctionByName (funcName r)) with
  | Some k => k
  | None =>
      if bool_decide (funcName r = qs "TRANSLATOR") then Annotation
      else Unrecognized
  end.

(** The table of section 4.3: the fields a kind requires. *)
Definition fieldRule (k : CallKind) (r : TranslationRelatedStore) : Prop :=
  match k with
  | DeclarativeContext => contextArg r <> []
  | PlainText => lupdateSource r <> []
  | ContextQualified => contextArg r <> [] /\ lupdateSource r <> []
  | IdentifierBased => lupdateId r <> []
  | Annotation => lupdateComment r <> []
  | Unrecognized => True
  end.

Definition locationRule (r : TranslationRelatedStore) : Prop :=
  lupdateLocationFile r <> [] /\ 0 <= lupdateLocationLine r /\ 0 <= locationCol r.

(** The fields [isValid] reads. *)
Definition sameValidityFields (r1 r2 : TranslationRelatedStore) : Prop :=
  funcName r1 = funcName r2
  /\ contextArg r1 = contextArg r2
  /\ lupdateSource r1 = lupdateSource r2
  /\ lupdateId r1 = lupdateId r2
  /\ lupdateComment r1 = lupdateComment r2
  /\ lupdateLocationFile r1 = lupdateLocationFile r2
  /\ lupdateLocationLine r1 = lupdateLocationLine r2
  /\ locationCol r1 = locationCol r2.

End Validity.

(** ** callLocation *)

Section FrontEnd.

(** [clang::FileEntry], as [FileManager::getFile] hands it out. *)
Variable FileEntry : Type.

(** [clang::SourceManager], through the two queries that [callLocation]
    makes: [getFileManager().getFile(name)] and [translateFileLineCol]. *)
Record SourceManager : Type := {
  getFile : std_string -> FileEntry;
  translateFileLineCol : FileEntry -> Z -> Z -> SourceLocation
}.

(** A query made to the front end. *)
Inductive FrontEndCall : Type :=
  | GetFile (name : std_string)
  | TranslateFileLineCol (file : FileEntry) (line col : Z).

(** What a call of [callLocation] leaves behind: the value returned, the
    record after the call, and the queries made to the front end. *)
Record CallLocationResult : Type := {
  returned : SourceLocation;
  store : TranslationRelatedStore;
  frontEndCalls : list FrontEndCall
}.

(** [TranslationRelatedStore::callLocation]. *)
Definition callLocation (sourceManager : SourceManager)
    (r : TranslationRelatedStore) : CallLocationResult :=
  if isInvalid (sourceLocation r) then
    let name := toStdString (lupdateLocationFile r) in
    let sourceFile := getFile sourceManager name in
    let line := to_unsigned (lupdateLocationLine r) in
    let col := to_unsigned (locationCol r) in
    let l := translateFileLineCol sourceManager sourceFile line col in
    {| returned := l;
       store := set_sourceLocation l r;
       frontEndCalls := [GetFile name; TranslateFileLineCol sourceFile line col] |}
  else
    {| returned := sourceLocation r; store := r; frontEndCalls := [] |}.

(** The location that the front end derives from the record's file,
    line and column. *)
Definition derivedLocation (sourceManager : SourceManager)
    (r : TranslationRelatedStore) : SourceLocation :=
  translateFileLineCol sourceManager
    (getFile sourceManager (toStdString (lupdateLocationFile r)))
    (to_unsigned (lupdateLocationLine r)) (to_unsigned (locationCol r)).

End FrontEnd.

Arguments getFile {FileEntry} _ _.
Arguments translateFileLineCol {FileEntry} _ _ _ _.
Arguments GetFile {FileEntry} _.
Arguments TranslateFileLineCol {FileEntry} _ _ _.
Arguments returned {FileEntry} _.
Arguments store {FileEntry} _.
Arguments frontEndCalls {FileEntry} _.
Arguments callLocation {FileEntry} _ _.
Arguments derivedLocation {FileEntry} _ _.

(** ** Characters and string primitives *)

(** The double quote and the backslash. *)
Definition dquote : ascii := ascii_of_nat 34.
Definition backslash : ascii := ascii_of_nat 92.

Definition code (c : ascii) : Z := Z.of_nat (nat_of_ascii c).

(** The default character set of [StringRef::trim]: space, \t, \n, \v,
    \f, \r. *)
Definition trimChars : list ascii :=
  map ascii_of_nat [32; 9; 10; 11; 12; 13]%nat.

Definition inChars (cs : list ascii) (c : ascii) : bool :=
  existsb (Ascii.eqb c) cs.

(** [QChar::isSpace], on the characters with a code below 256: the space,
    the characters 0x09 to 0x0d and, above 127, the next line character
    0x85 and the no-break space 0xa0 (no other character below 256 is a
    Unicode separator). *)
Definition QChar_isSpace (c : ascii) : bool :=
  (code c =? 32)
  || ((code c <=? 13) && (code c >=? 9))
  || ((code c >? 127) && ((code c =? 133) || (code c =? 160))).

Fixpoint dropWhile (p : ascii -> bool) (s : list ascii) : list ascii :=
  match s with
  | [] => []
  | c :: tl => if p c then dropWhile p tl else s
  end.

Definition trimBy (p : ascii -> bool) (s : list ascii) : list ascii :=
  rev (dropWhile p (rev (dropWhile p s))).

(** [StringRef::trim()]. *)
Definition trim (s : StringRef) : StringRef := trimBy (inChars trimChars) s.

(** [QString::trimmed()]. *)
Definition trimmed (s : QString) : QString := trimBy QChar_isSpace s.

Fixpoint startswith (p s : list ascii) : bool :=
  match p, s with
  | [], _ => true
  | _ :: _, [] => false
  | a :: p', b :: s' => Ascii.eqb a b && startswith p' s'
  end.

Definition endswith (p s : list ascii) : bool := startswith (rev p) (rev s).

(** [StringRef::consume_front]: the answer and the string afterwards. *)
Definition consume_front (p s : StringRef) : bool * StringRef :=
  if startswith p s then (true, drop (length p) s) else (false, s).

(** [StringRef::consume_back]. *)
Definition consume_back (p s : StringRef) : bool * StringRef :=
  if endswith p s then (true, take (length s - length p) s) else (false, s).

Fixpoint indexOf_from (c : ascii) (s : QString) (i : Z) : Z :=
  match s with
  | [] => -1
  | a :: tl => if Ascii.eqb a c then i else indexOf_from c tl (i + 1)
  end.

(** [QString::indexOf(QChar)]: the first index, or -1. *)
Definition indexOf (c : ascii) (s : QString) : Z := indexOf_from c s 0.

(** [QString::at], for an index inside the string. *)
Definition at_ (s : QString) (i : Z) : option ascii := s !! Z.to_nat i.

(** ** LupdatePrivate::QuoteCompulsary *)

Module QuoteCompulsary.

Inductive t : Set := None | Left | Right | LeftAndRight.

(** The enumerators' values: 0x01, 0x02, 0x04 and [Left | Right]. *)
Definition value (q : t) : Z :=
  match q with
  | None => 1
  | Left => 2
  | Right => 4
  | LeftAndRight => Z.lor 2 4
  end.

End QuoteCompulsary.

(** [LupdatePrivate::cleanQuote(llvm::StringRef, QuoteCompulsary)]. *)
Definition cleanQuote (s : StringRef) (quote : QuoteCompulsary.t) : QString :=
  if isEmpty s then []
  else
    let s := trim s in
    let '(front, s) := consume_front [dquote] s in
    if negb front
       && negb (Z.land (QuoteCompulsary.value quote)
                       (QuoteCompulsary.value QuoteCompulsary.Left) =? 0)
    then []
    else
      let '(back, s) := consume_back [dquote] s in
      if negb back
         && negb (Z.land (QuoteCompulsary.value quote)
                         (QuoteCompulsary.value QuoteCompulsary.Right) =? 0)
      then []
      else fromStdString s.

(** ** Regular expressions

    [QRegularExpression] (PCRE) on the constructs that the two patterns of
    [cleanQuote] use.  The matcher is a backtracking one: [rmatch] lists
    the states in which a match of the expression can end, in the order in
    which backtracking tries them, so that the head of the list is the
    match that is reported. *)

Inductive regex : Type :=
  | Char (c : ascii)                                (* a literal character *)
  | Class (negated : bool) (cs : list ascii)        (* [cs] and [^cs] *)
  | Dot                                             (* . *)
  | WordBoundary                                    (* \b *)
  | Seq (r1 r2 : regex)                             (* r1 r2 *)
  | Alt (r1 r2 : regex)                             (* r1|r2 *)
  | Repeat (greedy : bool) (lo : nat) (hi : option nat) (r : regex)
                                                    (* r{lo,hi}, r{lo,hi}? *)
  | Group (n : nat) (name : option string) (r : regex)
                                                    (* (r) and (?<name>r) *)
  | Backref (n : nat).                              (* \n *)

Infix "+>" := Seq (at level 60, right associativity).

(** A position in the subject: the character before it, the text after
    it, and the groups captured so far (most recent first). *)
Record MatchState : Type := {
  prev : option ascii;
  rest : list ascii;
  captures : list (nat * list ascii)
}.

Definition isWordChar (c : ascii) : bool :=
  ((code "a" <=? code c) && (code c <=? code "z"))
  || ((code "A" <=? code c) && (code c <=? code "Z"))
  || ((code "0" <=? code c) && (code c <=? code "9"))
  || Ascii.eqb c "_".

Definition isWord (c : option ascii) : bool :=
  match c with
  | Some c => isWordChar c
  | None => false
  end.

Definition atWordBoundary (st : MatchState) : bool :=
  xorb (isWord (prev st)) (isWord (head (rest st))).

(** One character is consumed if it satisfies [p]. *)
Definition consume (p : ascii -> bool) (st : MatchState) : list MatchState :=
  match rest st with
  | c :: tl =>
      if p c then [ {| prev := Some c; rest := tl; captures := captures st |} ]
      else []
  | [] => []
  end.

(** The text between two positions of the same subject. *)
Definition consumed (from to : MatchState) : list ascii :=
  take (length (rest from) - length (rest to)) (rest from).

Definition setCapture (n : nat) (from to : MatchState) : MatchState :=
  {| prev := prev to; rest := rest to;
     captures := (n, consumed from to) :: captures to |}.

Fixpoint capture (n : nat) (cs : list (nat * list ascii)) : option (list ascii) :=
  match cs with
  | [] => None
  | (m, s) :: tl => if Nat.eqb m n then Some s else capture n tl
  end.

(** A literal text is consumed. *)
Fixpoint consumeText (s : list ascii) (st : MatchState) : list MatchState :=
  match s with
  | [] => [st]
  | c :: s' => flat_map (consumeText s') (consume (Ascii.eqb c) st)
  end.

(** The iterations of a quantifier.  An iteration has to consume text, and
    [fuel] is at least the length of the text that is left, so that it
    runs out only where no iteration can follow. *)
Fixpoint repeatLoop (body : MatchState -> list MatchState) (greedy : bool)
    (lo : nat) (hi : option nat) (fuel : nat) (st : MatchState)
    : list MatchState :=
  let stop := match lo with O => [st] | S _ => [] end in
  match fuel, hi with
  | O, _ | _, Some O => stop
  | S fuel', _ =>
      let more :=
        flat_map
          (fun st' =>
             if (length (rest st') <? length (rest st))%nat
             then repeatLoop body greedy (pred lo) (pred <$> hi) fuel' st'
             else [])
          (body st) in
      if greedy then more ++ stop else stop ++ more
  end.

Fixpoint rmatch (dotAll : bool) (r : regex) {struct r}
    : MatchState -> list MatchState :=
  match r with
  | Char c => consume (Ascii.eqb c)
  | Class negated cs => consume (fun c => xorb negated (inChars cs c))
  | Dot => consume (fun c => dotAll || negb (Ascii.eqb c (ascii_of_nat 10)))
  | WordBoundary => fun st => if atWordBoundary st then [st] else []
  | Seq r1 r2 => fun st => flat_map (rmatch dotAll r2) (rmatch dotAll r1 st)
  | Alt r1 r2 => fun st => rmatch dotAll r1 st ++ rmatch dotAll r2 st
  | Repeat greedy lo hi r1 =>
      fun st => repeatLoop (rmatch dotAll r1) greedy lo hi (length (rest st)) st
  | Group n _ r1 => fun st => map (setCapture n st) (rmatch dotAll r1 st)
  | Backref n =>
      fun st =>
        match capture n (captures st) with
        | Some s => consumeText s st
        | None => []
        end
  end.

(** The match is looked for at every offset of the subject, from the
    left. *)
Fixpoint search (dotAll : bool) (r : regex) (before : option ascii)
    (subject : list ascii) : option MatchState :=
  match head (rmatch dotAll r {| prev := before; rest := subject; captures := [] |}) with
  | Some st => Some st
  | None =>
      match subject with
      | [] => None
      | c :: tl => search dotAll r (Some c) tl
      end
  end.

(** The number of the group called [name]. *)
Fixpoint groupNumber (name : string) (r : regex) : option nat :=
  match r with
  | Seq r1 r2 | Alt r1 r2 =>
      match groupNumber name r1 with
      | Some n => Some n
      | None => groupNumber name r2
      end
  | Repeat _ _ _ r1 => groupNumber name r1
  | Group n (Some name') r1 =>
      if String.eqb name name' then Some n else groupNumber name r1
  | Group _ None r1 => groupNumber name r1
  | _ => None
  end.

Record QRegularExpression : Type := {
  pattern : regex;
  DotMatchesEverythingOption : bool
}.

Record QRegularExpressionMatch : Type := {
  regularExpression : QRegularExpression;
  matched : option MatchState
}.

(** [QRegularExpression::match]. *)
Definition match_ (re : QRegularExpression) (subject : QString)
    : QRegularExpressionMatch :=
  {| regularExpression := re;
     matched := search (DotMatchesEverythingOption re) (pattern re) None subject |}.

(** [QRegularExpressionMatch::hasMatch]. *)
Definition hasMatch (m : QRegularExpressionMatch) : bool :=
  match matched m with
  | Some _ => true
  | None => false
  end.

(** [QRegularExpressionMatch::captured(name)]: the text of the group, the
    null string if it captured nothing. *)
Definition captured (m : QRegularExpressionMatch) (name : string) : QString :=
  match matched m, groupNumber name (pattern (regularExpression m)) with
  | Some st, Some n => default [] (capture n (captures st))
  | _, _ => []
  end.

(** [(?:\bu8|\b[LuU])], the encoding prefix of both patterns. *)
Definition encodingPrefix : regex :=
  Alt (WordBoundary +> Char "u" +> Char "8")
      (WordBoundary +> Class false [ "L"; "u"; "U" ]%char).

(** The pattern of the raw string literal, piece by piece (in the
    comments, Q is the escaped double quote of the pattern). *)
Definition rawStringLiteral : QRegularExpression := {|
  pattern :=
    Repeat false 0 (Some 1%nat) encodingPrefix +>   (* (?:\bu8|\b[LuU])?? *)
    Char "R" +> Char dquote +>                      (* RQ *)
    Group 1 None                                    (* ([^\(\)\\ ]{0,16}) *)
      (Repeat true 0 (Some 16%nat)
         (Class true [ "("; ")"; backslash; " " ]%char)) +>
    Char "(" +>                                     (* \( *)
    Group 2 (Some "characters"%string)              (* (?<characters> .* ) *)
      (Repeat true 0 None Dot) +>
    Char ")" +> Backref 1 +> Char dquote;           (* \)\1Q *)
  DotMatchesEverythingOption := true
|}.

(** The pattern of the ordinary string literal, piece by piece. *)
Definition stringLiteral : QRegularExpression := {|
  pattern :=
    Repeat false 1 None encodingPrefix +>           (* (?:\bu8|\b[LuU])+? *)
    Char dquote +>                                  (* Q *)
    Group 1 (Some "characters"%string)              (* (?<characters> *)
      (Repeat true 0 None
         (Class true [ dquote; backslash ]) +>      (*   [^Q\\]* *)
       Repeat true 0 None                           (*   (?: .. )* *)
         (Char backslash +> Dot +>                  (*     \\. *)
          Repeat true 0 None
            (Class true [ dquote; backslash ]))) +> (*     [^Q\\]* *)
    Char dquote;                                    (* Q *)
  DotMatchesEverythingOption := false
|}.

(** [LupdatePrivate::cleanQuote(const std::string &)]. *)
Definition cleanQuoteToken (token : std_string) : QString :=
  if isEmpty token then []
  else
    let string := trimmed (fromStdString token) in
    let index := indexOf dquote string in
    if index <=? 0 then cleanQuote token QuoteCompulsary.LeftAndRight
    else
      let result :=
        if bool_decide (at_ string (index - 1) = Some "R"%char)
        then match_ rawStringLiteral string
        else match_ stringLiteral string in
      if hasMatch result then captured result "characters"
      else string.

(** A string literal token: the text between double quotes. *)
Definition quoted (s : list ascii) : list ascii := dquote :: s ++ [dquote].


(** *** The annotation cleaner in the words of the specification *)

Definition leftMandatory (q : QuoteCompulsary.t) : bool :=
  match q with
  | QuoteCompulsary.Left | QuoteCompulsary.LeftAndRight => true
  | _ => false
  end.

Definition rightMandatory (q : QuoteCompulsary.t) : bool :=
  match q with
  | QuoteCompulsary.Right | QuoteCompulsary.LeftAndRight => true
  | _ => false
  end.

Definition removeLeadingQuote (t : list ascii) : list ascii :=
  if startswith [dquote] t then drop 1 t else t.

Definition removeTrailingQuote (t : list ascii) : list ascii :=
  if endswith [dquote] t then take (length t - 1) t else t.

(** Trim; give up with the empty text when a mandatory quote is absent;
    otherwise remove the quotes that are present. *)
Definition stripAnnotationQuotes (text : list ascii) (requirement : QuoteCompulsary.t)
    : list ascii :=
  let t := trim text in
  let leading := startswith [dquote] t in
  let trailing := endswith [dquote] t in
  if (negb leading && leftMandatory requirement)
     || (negb trailing && rightMandatory requirement)
  then []
  else removeTrailingQuote (removeLeadingQuote t).


(** ** Data of the examples *)

(** An alias table with the entries of an unconfigured run that the
    examples need. *)
Definition exampleAliases (name : QString) : option TrFunction :=
  if bool_decide (name = qs "tr") then Some Function_tr
  else if bool_decide (name = qs "translate") then Some Function_translate
  else if bool_decide (name = qs "qtTrId") then Some Function_qtTrId
  else None.

Definition exampleStore (f : string) (raw : string) : TranslationRelatedStore := {|
  callType := qs "ASTRead_CXXMemberCallExpr";
  rawCode := qs raw;
  funcName := qs f;
  locationCol := 5;
  contextArg := [];
  contextRetrieved := [];
  lupdateSource := qs "Hello";
  lupdateLocationFile := qs "main.cpp";
  lupdateLocationLine := 12;
  lupdateId := [];
  lupdateSourceWhenId := [];
  lupdateIdMetaData := [];
  lupdateMagicMetaData := [];
  lupdateAllMagicMetaData := ∅;
  lupdateComment := [];
  lupdateExtraComment := [];
  lupdatePlural := [];
  sourceLocation := SourceLocation_default
|}.

(** A record for a call of an unknown function, with no content at all. *)
Definition unknownCallStore : TranslationRelatedStore := {|
  callType := [];
  rawCode := [];
  funcName := qs "frobnicate";
  locationCol := 0;
  contextArg := [];
  contextRetrieved := [];
  lupdateSource := [];
  lupdateLocationFile := qs "main.cpp";
  lupdateLocationLine := 0;
  lupdateId := [];
  lupdateSourceWhenId := [];
  lupdateIdMetaData := [];
  lupdateMagicMetaData := [];
  lupdateAllMagicMetaData := ∅;
  lupdateComment := [];
  lupdateExtraComment := [];
  lupdatePlural := [];
  sourceLocation := SourceLocation_default
|}.

(** A front end that does not know the file: the location is invalid. *)
Definition unknownFileManager : SourceManager unit := {|
  getFile := fun _ => tt;
  translateFileLineCol := fun _ _ _ => SourceLocation_default
|}.

(** A front end that knows every file and numbers its positions. *)
Definition knownFileManager : SourceManager unit := {|
  getFile := fun _ => tt;
  translateFileLineCol := fun _ line col => {| getRawEncoding := 1000 * line + col |}
|}.

(** ** Tokens of string literals *)

(** The encoding prefixes: u8, L, u and U. *)
Definition encodingPrefixes : list (list ascii) :=
  [qs "u8"; qs "L"; qs "u"; qs "U"].

(** A raw string literal token: R, and between the quotes the delimiter,
    the content in parentheses, and the delimiter again. *)
Definition rawLiteral (delim content : list ascii) : list ascii :=
  "R"%char :: quoted (delim ++ "("%char :: content ++ ")"%char :: delim).

(** A character that the delimiter of a raw literal may hold: no
    parenthesis, backslash or space. *)
Definition isDelimiterChar (c : ascii) : bool :=
  negb (inChars [ "("; ")"; backslash; " " ]%char c).

(** The characters between the quotes of an ordinary literal: characters
    other than the quote and the backslash, and escape sequences (a
    backslash and a character that is not the line feed). *)
Fixpoint isLiteralBody (s : list ascii) : bool :=
  match s with
  | [] => true
  | c :: tl =>
      if Ascii.eqb c backslash then
        match tl with
        | [] => false
        | e :: tl' => negb (Ascii.eqb e (ascii_of_nat 10)) && isLiteralBody tl'
        end
      else negb (Ascii.eqb c dquote) && isLiteralBody tl
  end.

(** The class [[^Q\\]] of the ordinary literal: any character other than
    the quote and the backslash. *)
Definition isPlainChar (c : ascii) : bool :=
  xorb true (inChars [ dquote; backslash ] c).

(** [.] without [DotMatchesEverythingOption]: no line feed. *)
Definition isDotChar (c : ascii) : bool :=
  false || negb (Ascii.eqb c (ascii_of_nat 10)).

(** A text made of escape sequences, each followed by a run of plain
    characters: what the loop over escape sequences of the pattern goes
    through, round by round. *)
Inductive escapeBlocks : list ascii -> Prop :=
  | escapeBlocks_nil : escapeBlocks []
  | escapeBlocks_cons (e : ascii) (run s : list ascii) :
      isDotChar e = true ->
      Forall (fun c => isPlainChar c = true) run ->
      escapeBlocks s ->
      escapeBlocks (backslash :: e :: run ++ s).

(** The token is taken for a literal: it is enclosed in quotes (when the
    first quote opens the trimmed token, or there is none), or the pattern
    that the character before the first quote selects finds a match. *)
Definition recognizedLiteral (token : std_string) : bool :=
  let string := trimmed (fromStdString token) in
  let index := indexOf dquote string in
  if index <=? 0 then
    startswith [dquote] (trim token) && endswith [dquote] (drop 1 (trim token))
  else
    hasMatch
      (if bool_decide (at_ string (index - 1) = Some "R"%char)
       then match_ rawStringLiteral string
       else match_ stringLiteral string).

(** The raw literal of the specification's example: the content holds
    quotes. *)
Definition exampleRawContent : list ascii :=
  qs "abc " ++ quoted (qs "quoted") ++ qs " abc".

(** A body with an escaped quote and an escaped backslash. *)
Definition exampleEscapedBody : list ascii :=
  qs "a\" ++ [dquote] ++ qs "b\\c".

(** A token that is no literal: a quote in the middle, blanks around. *)
Definition exampleMalformedToken : list ascii :=
  qs " a" ++ [dquote] ++ qs "b ".

(** ** The version of the clang libraries *)

(** The macro [LUPDATE_CLANG_VERSION_CHECK(major, minor, patch)]:
    [((major<<16)|(minor<<8)|(patch))]. *)
Definition LUPDATE_CLANG_VERSION_CHECK (major minor patch : Z) : Z :=
  Z.lor (Z.lor (Z.shiftl major 16) (Z.shiftl minor 8)) patch.

(** The test of [callLocation]:
    [LUPDATE_CLANG_VERSION >= LUPDATE_CLANG_VERSION_CHECK(10,0,0)]. *)
Definition clangAtLeast10 (major minor patch : Z) : bool :=
  LUPDATE_CLANG_VERSION_CHECK major minor patch
  >=? LUPDATE_CLANG_VERSION_CHECK 10 0 0.

(** The order of versions, component by component. *)
Definition compareVersions (v w : Z * Z * Z) : comparison :=
  let '(major, minor, patch) := v in
  let '(major', minor', patch') := w in
  match major ?= major' with
  | Eq => match minor ?= minor' with
          | Eq => patch ?= patch'
          | c => c
          end
  | c => c
  end.

(** A version component that fits its field of the encoding. *)
Definition versionInRange (major minor patch : Z) : Prop :=
  0 <= major < 2 ^ 15 /\ 0 <= minor < 2 ^ 8 /\ 0 <= patch < 2 ^ 8.

(** ** Content fields and their order *)


(** * The index model of the help system (qhelpindexwidget.cpp) *)

(** An [int] made from a [qsizetype]: the value modulo 2^32, read as a
    signed number. *)
Definition toInt (z : Z) : Z := (z + 2 ^ 31) mod 2 ^ 32 - 2 ^ 31.

(** The state of [QHelpIndexModel] that [filter] works on: the keywords
    [d->indices], and the string list of the [QStringListModel]. *)
Record QHelpIndexModel : Type := {
  indices : list QString;
  stringList : list QString
}.

(** [QAbstractListModel::index(row, 0, {})]: the index of the row if the
    model has it, the invalid index otherwise. *)
Definition index (m : QHelpIndexModel) (row : Z) : option Z :=
  if (0 <=? row) && (row <? Z.of_nat (length (stringList m))) then Some row
  else None.

(** The variables of the loops of [filter]. *)
Record FilterState : Type := {
  lst : list QString;
  goodMatch : Z;
  perfectMatch : Z
}.

Section IndexModel.

(** [QChar::toCaseFolded], by which Qt compares without regard to
    case. *)
Variable toCaseFolded : ascii -> ascii.

(** [index.contains(regExp)] for the expression that
    [wildcardToRegularExpression] makes of the wildcard (unanchored, case
    insensitive). *)
Variable containsWildcard : QString -> QString -> bool.

(** [s.startsWith(prefix, Qt::CaseInsensitive)]. *)
Fixpoint startsWithCI (s prefix : QString) : bool :=
  match prefix, s with
  | [], _ => true
  | _ :: _, [] => false
  | a :: prefix', b :: s' =>
      Ascii.eqb (toCaseFolded a) (toCaseFolded b) && startsWithCI s' prefix'
  end.

(** [s.contains(needle, Qt::CaseInsensitive)]. *)
Fixpoint containsCI (s needle : QString) : bool :=
  startsWithCI s needle
  || match s with
     | [] => false
     | _ :: s' => containsCI s' needle
     end.

(** The body of either loop of [filter], for the test [keep] of the
    loop. *)
Definition filterStep (keep : QString -> bool) (filter : QString)
    (st : FilterState) (index : QString) : FilterState :=
  if keep index then
    let lst' := lst st ++ [index] in
    let last := toInt (Z.of_nat (length lst') - 1) in
    if (perfectMatch st =? -1) && startsWithCI index filter then
      {| lst := lst';
         goodMatch := if goodMatch st =? -1 then last else goodMatch st;
         perfectMatch :=
           if Z.of_nat (length filter) =? Z.of_nat (length index) then last
           else perfectMatch st |}
    else if (perfectMatch st >? -1) && bool_decide (index = filter) then
      {| lst := lst'; goodMatch := goodMatch st; perfectMatch := last |}
    else
      {| lst := lst'; goodMatch := goodMatch st; perfectMatch := perfectMatch st |}
  else st.

(** The test of the loop that [filter] runs: by the wildcard if there is
    one, by the filter otherwise. *)
Definition keeps (filter wildcard : QString) (index : QString) : bool :=
  if negb (isEmpty wildcard) then containsWildcard wildcard index
  else containsCI index filter.

(** [QHelpIndexModel::filter]: the model afterwards and the model index
    returned. *)
Definition filter_ (m : QHelpIndexModel) (filter wildcard : QString)
    : QHelpIndexModel * option Z :=
  if isEmpty filter then
    let m' := {| indices := indices m; stringList := indices m |} in
    (m', index m' (-1))
  else
    let st :=
      fold_left (filterStep (keeps filter wildcard) filter) (indices m)
        {| lst := []; goodMatch := -1; perfectMatch := -1 |} in
    let perfectMatch :=
      if perfectMatch st =? -1 then Z.max 0 (goodMatch st) else perfectMatch st in
    let m' := {| indices := indices m; stringList := lst st |} in
    (m', index m' perfectMatch).

(** *** The best match, said directly *)

(** The keyword is the filter but for the case. *)
Definition sameButCase (filter index : QString) : bool :=
  startsWithCI index filter && (length filter =? length index)%nat.

End IndexModel.

(** The position of the first element that satisfies [p]. *)
Fixpoint findFirst {A : Type} (p : A -> bool) (l : list A) : option nat :=
  match l with
  | [] => None
  | x :: l' => if p x then Some 0%nat else S <$> findFirst p l'
  end.

(** The position of the last element that satisfies [p]. *)
Fixpoint findLast {A : Type} (p : A -> bool) (l : list A) : option nat :=
  match l with
  | [] => None
  | x :: l' =>
      match findLast p l' with
      | Some i => Some (S i)
      | None => if p x then Some 0%nat else None
      end
  end.

(** The row of the best match in a list of keywords: the last keyword
    that is the filter itself; failing that, the first that is the filter
    but for the case; failing that, the first that starts with the filter;
    failing that, the first row. *)
Definition bestMatch (toCaseFolded : ascii -> ascii) (filter : QString)
    (l : list QString) : nat :=
  match findLast (fun k => bool_decide (k = filter)) l with
  | Some i => i
  | None =>
      match findFirst (sameButCase toCaseFolded filter) l with
      | Some i => i
      | None =>
          match findFirst (fun k => startsWithCI toCaseFolded k filter) l with
          | Some i => i
          | None => 0%nat
          end
      end
  end.

(** A case folding for the examples: the upper case letters of ASCII to
    lower case. *)
Definition asciiFold (c : ascii) : ascii :=
  if (code "A" <=? code c) && (code c <=? code "Z")
  then ascii_of_nat (nat_of_ascii c + 32)
  else c.

(** No wildcard support is needed for the examples. *)
Definition noWildcard (wildcard index : QString) : bool := false.

Definition exampleModel : QHelpIndexModel := {|
  indices := [qs "QStringList"; qs "qstring"; qs "QString"; qs "string";
              qs "QStringView"; qs "QString"];
  stringList := []
|}.

(** The value of a match variable of [filter]: the row found, or -1. *)
Definition rowOf (o : option nat) : Z :=
  match o with
  | Some i => Z.of_nat i
  | None => -1
  end.

(** * The stores and what happens to the records in them *)

(** [TranslationStores]: a [std::vector] of records. *)
Abbreviation TranslationStores := (list TranslationRelatedStore).

(** [struct Stores].  A [WriteSynchronizedRef] member refers to a vector
    that lives elsewhere; it stands here for that vector. *)
Record Stores : Type := {
  Preprocessor : TranslationStores;
  AST : TranslationStores;
  QDeclareTrWithContext : TranslationStores;
  QNoopTranlsationWithContext : TranslationStores
}.

(** The members of [Stores], by name. *)
Inductive Partition : Set :=
  | Partition_Preprocessor
  | Partition_AST
  | Partition_QDeclareTrWithContext
  | Partition_QNoopTranlsationWithContext.

Definition partitionOf (p : Partition) (s : Stores) : TranslationStores :=
  match p with
  | Partition_Preprocessor => Preprocessor s
  | Partition_AST => AST s
  | Partition_QDeclareTrWithContext => QDeclareTrWithContext s
  | Partition_QNoopTranlsationWithContext => QNoopTranlsationWithContext s
  end.

Definition setPartition (p : Partition) (l : TranslationStores) (s : Stores)
    : Stores :=
  match p with
  | Partition_Preprocessor =>
      {| Preprocessor := l; AST := AST s;
         QDeclareTrWithContext := QDeclareTrWithContext s;
         QNoopTranlsationWithContext := QNoopTranlsationWithContext s |}
  | Partition_AST =>
      {| Preprocessor := Preprocessor s; AST := l;
         QDeclareTrWithContext := QDeclareTrWithContext s;
         QNoopTranlsationWithContext := QNoopTranlsationWithContext s |}
  | Partition_QDeclareTrWithContext =>
      {| Preprocessor := Preprocessor s; AST := AST s;
         QDeclareTrWithContext := l;
         QNoopTranlsationWithContext := QNoopTranlsationWithContext s |}
  | Partition_QNoopTranlsationWithContext =>
      {| Preprocessor := Preprocessor s; AST := AST s;
         QDeclareTrWithContext := QDeclareTrWithContext s;
         QNoopTranlsationWithContext := l |}
  end.

Section History.

Variable FileEntry : Type.

(** Modelled from the spec: what a run does to the records of the stores.
    The header gives the two methods of a record, [callLocation], which
    writes to the record it is called on, and [isValid], which is [const].
    Producing a record is appending it to a partition ([push_back] on the
    vector; for the synchronized members through synchronized.h, which is
    not among the sources): section 4.4 has the partitions append-only,
    nothing is removed or overwritten. *)
Inductive Event : Type :=
  | Append (p : Partition) (r : TranslationRelatedStore)
  | CallLocation (p : Partition) (i : nat) (sm : SourceManager FileEntry)
  | IsValid (p : Partition) (i : nat).

(** The stores after an event.  A method called on a record that is not
    there is no event of a run; the stores are left as they are. *)
Definition perform (s : Stores) (e : Event) : Stores :=
  match e with
  | Append p r => setPartition p (partitionOf p s ++ [r]) s
  | CallLocation p i sm =>
      match partitionOf p s !! i with
      | Some r =>
          setPartition p (<[i := store (callLocation sm r)]> (partitionOf p s)) s
      | None => s
      end
  | IsValid p i => s
  end.

(** The stores after a history of events. *)
Definition runHistory (history : list Event) (s : Stores) : Stores :=
  fold_left perform history s.

End History.

Arguments Append {FileEntry} _ _.
Arguments CallLocation {FileEntry} _ _ _.
Arguments IsValid {FileEntry} _ _.
Arguments perform {FileEntry} _ _.
Arguments runHistory {FileEntry} _ _.

(** Two runs for the examples: the same call of [tr], found by the tree
    walk in one and by the preprocessor walk, after another record, in the
    other. *)
Definition exampleStoresA : Stores := {|
  Preprocessor := [];
  AST := [exampleStore "tr" "tr(Hello)"];
  QDeclareTrWithContext := [];
  QNoopTranlsationWithContext := []
|}.

Definition exampleStoresB : Stores := {|
  Preprocessor := [unknownCallStore; exampleStore "tr" "tr ( Hello )"];
  AST := [];
  QDeclareTrWithContext := [];
  QNoopTranlsationWithContext := []
|}.

Definition exampleHistoryA : list (Event unit) :=
  [CallLocation Partition_AST 0 knownFileManager;
   Append Partition_AST unknownCallStore;
   IsValid Partition_AST 1].

Definition exampleHistoryB : list (Event unit) :=
  [Append Partition_Preprocessor (exampleStore "translate" "translate(x)");
   CallLocation Partition_Preprocessor 1 unknownFileManager;
   CallLocation Partition_Preprocessor 0 knownFileManager].
(** * Properties *)

(** ** Text primitives *)

Lemma isEmpty_true (s : list ascii) : isEmpty s = true <-> s = [].
Proof. destruct s; simpl; split; congruence. Qed.

Lemma isEmpty_false (s : list ascii) : isEmpty s = false <-> s <> [].
Proof. destruct s; simpl; split; congruence. Qed.

(** ** Validity *)

Section ValidityFacts.

Variable trFunctionByName : QString -> option TrFunction.

Lemma location_test (r : TranslationRelatedStore) :
  negb (isEmpty (lupdateLocationFile r))
  && (lupdateLocationLine r >? -1) && (locationCol r >? -1) = true
  <-> locationRule r.
Proof.
  unfold locationRule.
  rewrite !andb_true_iff, negb_true_iff, isEmpty_false.
  rewrite !Z.gtb_ltb, !Z.ltb_lt. intuition lia.
Qed.

(** The default branch of the switch. *)
Lemma isValid_default (r : TranslationRelatedStore) :
  kindOfFunction (trFunctionByName (funcName r)) = None ->
  isValid trFunctionByName r =
    if bool_decide (funcName r = qs "TRANSLATOR") && isEmpty (lupdateComment r)
    then false
    else negb (isEmpty (lupdateLocationFile r))
         && (lupdateLocationLine r >? -1) && (locationCol r >? -1).
Proof.
  unfold isValid.
  destruct (trFunctionByName (funcName r)) as [[]|]; simpl; congruence.
Qed.

End ValidityFacts.

(** C1. [isValid] answers true exactly when the location rule holds (file
    not empty, line and column not negative) and the fields that the
    record's resolved call kind requires are not empty: the context for a
    declarative-context record, the source for a plain-text one, both for
    a context-qualified one, the id for an identifier-based one, the
    comment for a TRANSLATOR annotation. *)
Theorem isValid_iff_location_and_field_rule
    (trFunctionByName : QString -> option TrFunction)
    (r : TranslationRelatedStore) :
  isValid trFunctionByName r = true
  <-> locationRule r /\ fieldRule (callKind trFunctionByName r) r.
Proof.
  rewrite <- location_test.
  unfold isValid, callKind.
  destruct (trFunctionByName (funcName r)) as [[]|]; simpl;
    repeat match goal with
    | |- context [bool_decide ?P] => destruct (bool_decide P); simpl
    | |- context [isEmpty ?s] =>
        let E := fresh "E" in
        destruct (isEmpty s) eqn:E; simpl;
        [apply isEmpty_true in E | apply isEmpty_false in E]
    end;
    intuition congruence.
Qed.

(** Validity is a function of the alias table and of the eight fields
    that [isValid] reads: two records that agree on them get the same
    answer, whatever their other fields hold. *)
Lemma isValid_determined_by_fields
    (trFunctionByName : QString -> option TrFunction)
    (r1 r2 : TranslationRelatedStore) :
  sameValidityFields r1 r2 ->
  isValid trFunctionByName r1 = isValid trFunctionByName r2.
Proof.
  intros (Hf & Hc & Hs & Hi & Hm & Hl & Hn & Hk).
  unfold isValid. rewrite Hf, Hc, Hs, Hi, Hm, Hl, Hn, Hk. reflexivity.
Qed.


Lemma isValid_determined_by_fields_witness :
  sameValidityFields (exampleStore "tr" "tr(Hello)")
    (set_sourceLocation {| getRawEncoding := 77 |} (exampleStore "tr" "tr ( Hello )"))
  /\ isValid exampleAliases (exampleStore "tr" "tr(Hello)")
     = isValid exampleAliases
         (set_sourceLocation {| getRawEncoding := 77 |}
            (exampleStore "tr" "tr ( Hello )")).
Proof.
  split.
  - repeat split; reflexivity.
  - apply (isValid_determined_by_fields exampleAliases).
    repeat split; reflexivity.
Defined.

(** C8. A record whose function name the alias table resolves to no kind
    that the switch lists, and that is not TRANSLATOR, is valid as soon as
    its location is: no content field is asked for. *)
Theorem isValid_unrecognized_needs_location_only
    (trFunctionByName : QString -> option TrFunction)
    (r : TranslationRelatedStore) :
  kindOfFunction (trFunctionByName (funcName r)) = None ->
  funcName r <> qs "TRANSLATOR" ->
  lupdateLocationFile r <> [] ->
  0 <= lupdateLocationLine r ->
  0 <= locationCol r ->
  isValid trFunctionByName r = true.
Proof.
  intros Hk Hn Hf Hl Hc.
  rewrite isValid_default by exact Hk.
  rewrite bool_decide_eq_false_2 by exact Hn. simpl.
  apply location_test. repeat split; assumption.
Qed.


Lemma isValid_unrecognized_needs_location_only_witness :
  isValid exampleAliases unknownCallStore = true.
Proof.
  apply (isValid_unrecognized_needs_location_only exampleAliases unknownCallStore).
  - reflexivity.
  - discriminate.
  - discriminate.
  - simpl; lia.
  - simpl; lia.
Defined.

(** ** callLocation *)

Lemma callLocation_cached {FileEntry : Type} (sm : SourceManager FileEntry)
    (r : TranslationRelatedStore) :
  isInvalid (sourceLocation r) = false ->
  callLocation sm r
  = {| returned := sourceLocation r; store := r; frontEndCalls := [] |}.
Proof. intros H. unfold callLocation. rewrite H. reflexivity. Qed.

Lemma callLocation_first {FileEntry : Type} (sm : SourceManager FileEntry)
    (r : TranslationRelatedStore) :
  isInvalid (sourceLocation r) = true ->
  returned (callLocation sm r) = derivedLocation sm r
  /\ store (callLocation sm r) = set_sourceLocation (derivedLocation sm r) r.
Proof. intros H. unfold callLocation. rewrite H. split; reflexivity. Qed.

(** With one source manager, a second call returns what the first did and
    leaves the record as the first left it. *)
Lemma callLocation_twice {FileEntry : Type} (sm : SourceManager FileEntry)
    (r : TranslationRelatedStore) :
  returned (callLocation sm (store (callLocation sm r)))
  = returned (callLocation sm r)
  /\ store (callLocation sm (store (callLocation sm r)))
     = store (callLocation sm r).
Proof.
  destruct (isInvalid (sourceLocation r)) eqn:H.
  - destruct (callLocation_first sm r H) as [Hr Hs].
    rewrite Hr, Hs.
    destruct (isInvalid (derivedLocation sm r)) eqn:Hd.
    + unfold callLocation. simpl. rewrite Hd. simpl.
      split; reflexivity.
    + rewrite (callLocation_cached sm (set_sourceLocation _ r)) by exact Hd.
      split; reflexivity.
  - rewrite (callLocation_cached sm r H). simpl.
    rewrite (callLocation_cached sm r H). split; reflexivity.
Qed.

(** C6, as amended.  The first call (invalid [sourceLocation]) derives the
    location from file, line and column through the front end and stores
    it.  When that location is valid, every later call, with whatever
    source manager, returns the stored value and makes no query; with the
    same source manager a second call returns the value of the first in
    every case. *)
Theorem callLocation_lazy_and_cached_when_valid {FileEntry : Type}
    (sm : SourceManager FileEntry) (r : TranslationRelatedStore) :
  isInvalid (sourceLocation r) = true ->
  returned (callLocation sm r) = derivedLocation sm r
  /\ sourceLocation (store (callLocation sm r)) = returned (callLocation sm r)
  /\ (isInvalid (returned (callLocation sm r)) = false ->
      forall sm' : SourceManager FileEntry,
        callLocation sm' (store (callLocation sm r))
        = {| returned := returned (callLocation sm r);
             store := store (callLocation sm r);
             frontEndCalls := [] |})
  /\ returned (callLocation sm (store (callLocation sm r)))
     = returned (callLocation sm r).
Proof.
  intros H.
  destruct (callLocation_first sm r H) as [Hr Hs].
  repeat split.
  - exact Hr.
  - rewrite Hs, Hr. reflexivity.
  - intros Hv sm'.
    rewrite (callLocation_cached sm' (store (callLocation sm r))).
    + rewrite Hs at 1. rewrite Hr. reflexivity.
    + rewrite Hs. rewrite Hr in Hv. exact Hv.
  - apply callLocation_twice.
Qed.

Lemma callLocation_lazy_and_cached_when_valid_witness :
  isInvalid (sourceLocation (exampleStore "tr" "tr(Hello)")) = true
  /\ returned (callLocation knownFileManager (exampleStore "tr" "tr(Hello)"))
     = {| getRawEncoding := 12005 |}
  /\ callLocation unknownFileManager
       (store (callLocation knownFileManager (exampleStore "tr" "tr(Hello)")))
     = {| returned := {| getRawEncoding := 12005 |};
          store := set_sourceLocation {| getRawEncoding := 12005 |}
                     (exampleStore "tr" "tr(Hello)");
          frontEndCalls := [] |}.
Proof.
  split; [reflexivity |].
  destruct (callLocation_lazy_and_cached_when_valid knownFileManager
              (exampleStore "tr" "tr(Hello)") eq_refl)
    as (Hr & _ & Hc & _).
  split.
  - rewrite Hr. reflexivity.
  - rewrite (Hc eq_refl unknownFileManager). reflexivity.
Defined.

(** C6, as stated, fails: when the front end answers with the invalid
    location, the record stays as if never resolved, and the next call
    queries the front end again; with another source manager it even
    returns another value. *)
Lemma callLocation_invalid_location_not_cached :
  isInvalid (sourceLocation (exampleStore "tr" "tr(Hello)")) = true
  /\ frontEndCalls
       (callLocation unknownFileManager
          (store (callLocation unknownFileManager (exampleStore "tr" "tr(Hello)"))))
     = [GetFile (qs "main.cpp"); TranslateFileLineCol tt 12 5]
  /\ returned
       (callLocation knownFileManager
          (store (callLocation unknownFileManager (exampleStore "tr" "tr(Hello)"))))
     <> returned (callLocation unknownFileManager (exampleStore "tr" "tr(Hello)")).
Proof.
  split; [reflexivity |]. split; [reflexivity |].
  vm_compute. discriminate.
Qed.

(** X16. A call of [callLocation] on a record does not change the answer
    of [isValid] for it. *)
Lemma isValid_after_callLocation {FileEntry : Type}
    (trFunctionByName : QString -> option TrFunction)
    (sm : SourceManager FileEntry) (r : TranslationRelatedStore) :
  isValid trFunctionByName (store (callLocation sm r)) = isValid trFunctionByName r.
Proof.
  unfold callLocation. destruct (isInvalid (sourceLocation r)); reflexivity.
Qed.

(** C9. [callLocation] leaves every field but [sourceLocation] as it
    was. *)
Theorem callLocation_changes_sourceLocation_only {FileEntry : Type}
    (sm : SourceManager FileEntry) (r : TranslationRelatedStore) :
  let r' := store (callLocation sm r) in
  callType r' = callType r
  /\ rawCode r' = rawCode r
  /\ funcName r' = funcName r
  /\ locationCol r' = locationCol r
  /\ contextArg r' = contextArg r
  /\ contextRetrieved r' = contextRetrieved r
  /\ lupdateSource r' = lupdateSource r
  /\ lupdateLocationFile r' = lupdateLocationFile r
  /\ lupdateLocationLine r' = lupdateLocationLine r
  /\ lupdateId r' = lupdateId r
  /\ lupdateSourceWhenId r' = lupdateSourceWhenId r
  /\ lupdateIdMetaData r' = lupdateIdMetaData r
  /\ lupdateMagicMetaData r' = lupdateMagicMetaData r
  /\ lupdateAllMagicMetaData r' = lupdateAllMagicMetaData r
  /\ lupdateComment r' = lupdateComment r
  /\ lupdateExtraComment r' = lupdateExtraComment r
  /\ lupdatePlural r' = lupdatePlural r.
Proof.
  unfold callLocation.
  destruct (isInvalid (sourceLocation r)); simpl; repeat split; reflexivity.
Qed.

(** ** The annotation cleaner *)

Lemma startswith_dquote (s : list ascii) : startswith [dquote] (dquote :: s) = true.
Proof. reflexivity. Qed.

Lemma startswith_one (p c : ascii) (s : list ascii) :
  startswith [p] (c :: s) = Ascii.eqb p c.
Proof.
  change (startswith [p] (c :: s)) with (Ascii.eqb p c && true).
  apply andb_true_r.
Qed.

Lemma endswith_snoc (c : ascii) (s : list ascii) :
  endswith [c] (s ++ [c]) = true.
Proof.
  unfold endswith. rewrite rev_app_distr. simpl.
  rewrite Ascii.eqb_refl. reflexivity.
Qed.

Lemma endswith_cons (p c : ascii) (s : list ascii) :
  s <> [] -> endswith [p] (c :: s) = endswith [p] s.
Proof.
  intros Hs. unfold endswith. simpl.
  destruct (rev s) as [|x l] eqn:E.
  - apply (f_equal (@rev ascii)) in E. rewrite rev_involutive in E.
    simpl in E. contradiction.
  - reflexivity.
Qed.

Lemma take_snoc (s : list ascii) (c : ascii) :
  take (length (s ++ [c]) - 1) (s ++ [c]) = s.
Proof.
  rewrite length_app. simpl.
  replace (length s + 1 - 1)%nat with (length s) by lia.
  apply take_app_length.
Qed.

Lemma needs_left (q : QuoteCompulsary.t) :
  negb (Z.land (QuoteCompulsary.value q)
          (QuoteCompulsary.value QuoteCompulsary.Left) =? 0)
  = leftMandatory q.
Proof. destruct q; reflexivity. Qed.

Lemma needs_right (q : QuoteCompulsary.t) :
  negb (Z.land (QuoteCompulsary.value q)
          (QuoteCompulsary.value QuoteCompulsary.Right) =? 0)
  = rightMandatory q.
Proof. destruct q; reflexivity. Qed.

(** The body of [cleanQuote] after the trim, against the words of the
    specification. *)
Lemma cleanQuote_trimmed (t : list ascii) (q : QuoteCompulsary.t) :
  (let '(front, s) := consume_front [dquote] t in
   if negb front && leftMandatory q then []
   else
     let '(back, s) := consume_back [dquote] s in
     if negb back && rightMandatory q then [] else fromStdString s)
  = if (negb (startswith [dquote] t) && leftMandatory q)
       || (negb (endswith [dquote] t) && rightMandatory q)
    then []
    else removeTrailingQuote (removeLeadingQuote t).
Proof.
  unfold consume_front, removeLeadingQuote, consume_back, removeTrailingQuote,
    fromStdString.
  destruct t as [|c tl].
  - destruct q; reflexivity.
  - destruct (startswith [dquote] (c :: tl)) eqn:Hfront.
    + (* the leading quote is there *)
      change (drop (length [dquote]) (c :: tl)) with tl.
      change (drop 1 (c :: tl)) with tl.
      change (length [dquote]) with 1%nat.
      destruct tl as [|c' tl'].
      * rewrite startswith_one in Hfront.
        apply Ascii.eqb_eq in Hfront. subst c.
        destruct q; reflexivity.
      * rewrite (endswith_cons dquote c (c' :: tl')) by discriminate.
        destruct (endswith [dquote] (c' :: tl')); [reflexivity |].
        destruct (rightMandatory q); reflexivity.
    + (* no leading quote *)
      change (length [dquote]) with 1%nat.
      destruct (leftMandatory q); [reflexivity |].
      destruct (endswith [dquote] (c :: tl)); [reflexivity |].
      destruct (rightMandatory q); reflexivity.
Qed.

Lemma cleanQuote_unfold (s : list ascii) (q : QuoteCompulsary.t) :
  cleanQuote s q =
    if isEmpty s then []
    else
      let '(front, s) := consume_front [dquote] (trim s) in
      if negb front && leftMandatory q then []
      else
        let '(back, s) := consume_back [dquote] s in
        if negb back && rightMandatory q then [] else fromStdString s.
Proof.
  unfold cleanQuote. rewrite needs_left, needs_right. reflexivity.
Qed.

(** C4. [cleanQuote(s, quote)] trims the text, answers with the empty
    string when the leading quote is absent and [Left] is required or the
    trailing quote is absent and [Right] is required, and otherwise
    removes the quotes that are there; the three examples of the
    specification. *)
Theorem cleanQuote_strips_annotation_quotes :
  (forall (s : list ascii) (q : QuoteCompulsary.t),
     cleanQuote s q = stripAnnotationQuotes s q)
  /\ cleanQuote (qs " " ++ quoted (qs "hello") ++ qs " ") QuoteCompulsary.LeftAndRight
     = qs "hello"
  /\ cleanQuote (qs "hello") QuoteCompulsary.Left = []
  /\ cleanQuote (qs "hello") QuoteCompulsary.None = qs "hello".
Proof.
  split; [| repeat split; reflexivity].
  intros s q. rewrite cleanQuote_unfold. unfold stripAnnotationQuotes.
  destruct s as [|c s'].
  - destruct q; reflexivity.
  - simpl isEmpty. cbv iota. apply cleanQuote_trimmed.
Qed.

(** C10. Both cleaners answer the empty input with the empty string. *)
Theorem cleanQuote_of_empty_is_empty :
  (forall q : QuoteCompulsary.t, cleanQuote [] q = [])
  /\ cleanQuoteToken [] = [].
Proof.
  split.
  - intros q. reflexivity.
  - reflexivity.
Qed.

(** ** The matcher *)

Lemma head_app_Some {A : Type} (l1 l2 : list A) (x : A) :
  head l1 = Some x -> head (l1 ++ l2) = Some x.
Proof. destruct l1; simpl; congruence. Qed.

Lemma head_flat_map {A B : Type} (f : A -> list B) (l : list A) (x : A) (y : B) :
  head l = Some x -> head (f x) = Some y -> head (flat_map f l) = Some y.
Proof.
  destruct l as [|a l]; simpl; [discriminate |].
  intros [= ->] Hy. apply head_app_Some. exact Hy.
Qed.

Lemma flat_map_nil {A B : Type} (f : A -> list B) (l : list A) :
  (forall x, In x l -> f x = []) -> flat_map f l = [].
Proof.
  induction l as [|a l IH]; simpl; intros H; [reflexivity |].
  rewrite (H a) by (left; reflexivity). simpl.
  apply IH. intros x Hx. apply H. right. exact Hx.
Qed.

Lemma flat_map_same {A B : Type} (f g : A -> list B) (l : list A) :
  (forall x, In x l -> f x = g x) -> flat_map f l = flat_map g l.
Proof.
  induction l as [|a l IH]; simpl; intros H; [reflexivity |].
  rewrite (H a) by (left; reflexivity).
  rewrite IH; [reflexivity |]. intros x Hx. apply H. right. exact Hx.
Qed.

Lemma flat_map_of_map {A B C : Type} (f : B -> list C) (g : A -> B) (l : list A) :
  flat_map f (map g l) = flat_map (fun x => f (g x)) l.
Proof. induction l as [|a l IH]; simpl; [reflexivity | rewrite IH; reflexivity]. Qed.

(** The first match of a sequence, when the first match of its head can
    be continued. *)
Lemma rmatch_Seq_first (d : bool) (r1 r2 : regex) (st x y : MatchState) :
  head (rmatch d r1 st) = Some x ->
  head (rmatch d r2 x) = Some y ->
  head (rmatch d (r1 +> r2) st) = Some y.
Proof. intros H1 H2. simpl. exact (head_flat_map _ _ _ _ H1 H2). Qed.

Lemma rmatch_Seq (d : bool) (r1 r2 : regex) (st : MatchState) :
  rmatch d (r1 +> r2) st = flat_map (rmatch d r2) (rmatch d r1 st).
Proof. reflexivity. Qed.

Lemma rmatch_Group (d : bool) (n : nat) (name : option string) (r : regex)
    (st : MatchState) :
  rmatch d (Group n name r) st = map (setCapture n st) (rmatch d r st).
Proof. reflexivity. Qed.

Lemma rmatch_Repeat_Class (d greedy negated : bool) (lo : nat) (hi : option nat)
    (cs : list ascii) (st : MatchState) :
  rmatch d (Repeat greedy lo hi (Class negated cs)) st
  = repeatLoop (consume (fun c => xorb negated (inChars cs c))) greedy lo hi
      (length (rest st)) st.
Proof. reflexivity. Qed.

Lemma rmatch_Repeat_Dot (d greedy : bool) (lo : nat) (hi : option nat)
    (st : MatchState) :
  rmatch d (Repeat greedy lo hi Dot) st
  = repeatLoop (consume (fun c => d || negb (Ascii.eqb c (ascii_of_nat 10))))
      greedy lo hi (length (rest st)) st.
Proof. reflexivity. Qed.

Lemma rmatch_Repeat (d greedy : bool) (lo : nat) (hi : option nat) (r : regex)
    (st : MatchState) :
  rmatch d (Repeat greedy lo hi r) st
  = repeatLoop (rmatch d r) greedy lo hi (length (rest st)) st.
Proof. reflexivity. Qed.

Lemma rmatch_Dot (d : bool) (st : MatchState) :
  rmatch d Dot st
  = consume (fun c => d || negb (Ascii.eqb c (ascii_of_nat 10))) st.
Proof. reflexivity. Qed.

Lemma rmatch_Char (d : bool) (c : ascii) (st : MatchState) :
  rmatch d (Char c) st = consume (Ascii.eqb c) st.
Proof. reflexivity. Qed.

Lemma consume_hit (p : ascii -> bool) (pv : option ascii) (c : ascii)
    (tl : list ascii) (caps : list (nat * list ascii)) :
  p c = true ->
  consume p {| prev := pv; rest := c :: tl; captures := caps |}
  = [ {| prev := Some c; rest := tl; captures := caps |} ].
Proof. intros H. unfold consume. simpl. rewrite H. reflexivity. Qed.

Lemma consume_miss (p : ascii -> bool) (pv : option ascii) (c : ascii)
    (tl : list ascii) (caps : list (nat * list ascii)) :
  p c = false ->
  consume p {| prev := pv; rest := c :: tl; captures := caps |} = [].
Proof. intros H. unfold consume. simpl. rewrite H. reflexivity. Qed.

Lemma consume_In (p : ascii -> bool) (st y : MatchState) :
  In y (consume p st) ->
  length (rest st) = S (length (rest y)) /\ captures y = captures st.
Proof.
  unfold consume. destruct (rest st) as [|c tl]; [intros [] |].
  destruct (p c); [| intros []].
  intros [<- | []]. simpl. split; reflexivity.
Qed.

Lemma consumeText_In (s : list ascii) (st y : MatchState) :
  In y (consumeText s st) ->
  length (rest st) = (length s + length (rest y))%nat
  /\ captures y = captures st.
Proof.
  revert st. induction s as [|c s IH]; simpl; intros st.
  - intros [<- | []]. split; reflexivity.
  - rewrite in_flat_map. intros (x & Hx & Hy).
    apply consume_In in Hx. apply IH in Hy.
    destruct Hx as [Hx1 Hx2], Hy as [Hy1 Hy2].
    split; [lia | congruence].
Qed.

Lemma consumeText_hit (s tl : list ascii) (pv : option ascii)
    (caps : list (nat * list ascii)) :
  exists pv',
    consumeText s {| prev := pv; rest := s ++ tl; captures := caps |}
    = [ {| prev := pv'; rest := tl; captures := caps |} ].
Proof.
  revert pv. induction s as [|c s IH]; intros pv.
  - exists pv. reflexivity.
  - destruct (IH (Some c)) as [pv' Hpv'].
    exists pv'. simpl app. cbn [consumeText].
    rewrite consume_hit by apply Ascii.eqb_refl.
    simpl. rewrite Hpv'. reflexivity.
Qed.

(** *** Quantifiers *)

(** A lazy quantifier that may stop tries that first. *)
Lemma repeatLoop_lazy_first (body : MatchState -> list MatchState)
    (hi : option nat) (fuel : nat) (st : MatchState) :
  head (repeatLoop body false 0 hi fuel st) = Some st.
Proof. destruct fuel; [reflexivity |]. destruct hi as [[|h]|]; reflexivity. Qed.

(** The fuel is enough: any amount above the length of the text gives the
    same list. *)
Lemma repeatLoop_fuel (body : MatchState -> list MatchState) (greedy : bool)
    (n : nat) :
  forall (st : MatchState) (lo : nat) (hi : option nat) (fuel1 fuel2 : nat),
    (length (rest st) <= n)%nat ->
    (length (rest st) <= fuel1)%nat ->
    (length (rest st) <= fuel2)%nat ->
    repeatLoop body greedy lo hi fuel1 st = repeatLoop body greedy lo hi fuel2 st.
Proof.
  induction n as [|n IH]; intros st lo hi fuel1 fuel2 Hn H1 H2.
  - (* nothing is left: no iteration can consume *)
    assert (Hstop : forall fuel,
      repeatLoop body greedy lo hi fuel st
      = match lo with O => [st] | S _ => [] end).
    { intros [|fuel]; [reflexivity |].
      destruct hi as [[|h]|]; try reflexivity;
        cbn [repeatLoop];
        (rewrite flat_map_nil;
         [destruct greedy; [reflexivity | apply app_nil_r] |]);
        intros x _; (replace (length (rest st)) with 0%nat by lia);
        reflexivity. }
    rewrite (Hstop fuel1), (Hstop fuel2). reflexivity.
  - destruct fuel1 as [|f1], fuel2 as [|f2].
    + reflexivity.
    + apply (IH st lo hi 0%nat (S f2)); lia.
    + apply (IH st lo hi (S f1) 0%nat); lia.
    + assert (Hmore : forall hi',
        flat_map
          (fun st' =>
             if (length (rest st') <? length (rest st))%nat
             then repeatLoop body greedy (pred lo) hi' f1 st' else [])
          (body st)
        = flat_map
            (fun st' =>
               if (length (rest st') <? length (rest st))%nat
               then repeatLoop body greedy (pred lo) hi' f2 st' else [])
            (body st)).
      { intros hi'. apply flat_map_same. intros x _.
        destruct (Nat.ltb_spec (length (rest x)) (length (rest st)));
          [| reflexivity].
        apply IH; lia. }
      destruct hi as [[|h]|]; try reflexivity; cbn [repeatLoop];
        rewrite Hmore; reflexivity.
Qed.

Lemma repeatLoop_enough (body : MatchState -> list MatchState) (greedy : bool)
    (lo : nat) (hi : option nat) (fuel : nat) (st : MatchState) :
  (length (rest st) <= fuel)%nat ->
  repeatLoop body greedy lo hi fuel st
  = repeatLoop body greedy lo hi (length (rest st)) st.
Proof.
  intros H. apply (repeatLoop_fuel body greedy (length (rest st))); lia.
Qed.

Lemma repeatLoop_In (body : MatchState -> list MatchState) (greedy : bool) :
  (forall st y, In y (body st) -> captures y = captures st) ->
  forall (fuel lo : nat) (hi : option nat) (st y : MatchState),
    In y (repeatLoop body greedy lo hi fuel st) ->
    (length (rest y) <= length (rest st))%nat /\ captures y = captures st.
Proof.
  intros Hbody.
  assert (Hstop : forall lo st y,
    In y (match lo with O => [st] | S _ => [] end) ->
    (length (rest y) <= length (rest st))%nat /\ captures y = captures st).
  { intros [|lo] st y; [| intros []]. intros [<- | []]. split; [lia | reflexivity]. }
  induction fuel as [|fuel IH]; intros lo hi st y.
  - apply Hstop.
  - assert (Hmore : forall hi',
      In y (flat_map
              (fun st' =>
                 if (length (rest st') <? length (rest st))%nat
                 then repeatLoop body greedy (pred lo) hi' fuel st' else [])
              (body st)) ->
      (length (rest y) <= length (rest st))%nat /\ captures y = captures st).
    { intros hi'. rewrite in_flat_map. intros (x & Hx & Hy).
      destruct (Nat.ltb_spec (length (rest x)) (length (rest st))); [| destruct Hy].
      apply IH in Hy. apply Hbody in Hx. destruct Hy as [Hy1 Hy2].
      split; [lia | congruence]. }
    destruct hi as [[|h]|]; cbn [repeatLoop]; try apply Hstop;
      destruct greedy; rewrite in_app_iff;
      intros [H | H];
      first [exact (Hstop _ _ _ H) | exact (Hmore _ H)].
Qed.

Lemma consume_captures (p : ascii -> bool) (st y : MatchState) :
  In y (consume p st) -> captures y = captures st.
Proof. intros H. apply consume_In in H. apply H. Qed.

(** One round of a greedy quantifier over single characters. *)
Lemma many_unfold (p : ascii -> bool) (hi : option nat) (pv : option ascii)
    (c : ascii) (tl : list ascii) (caps : list (nat * list ascii)) :
  hi <> Some 0%nat ->
  repeatLoop (consume p) true 0 hi (S (length tl))
    {| prev := pv; rest := c :: tl; captures := caps |}
  = (if p c
     then repeatLoop (consume p) true 0 (pred <$> hi) (length tl)
            {| prev := Some c; rest := tl; captures := caps |}
     else [])
    ++ [ {| prev := pv; rest := c :: tl; captures := caps |} ].
Proof.
  intros Hhi.
  assert (Hlt : (length tl <? length (c :: tl))%nat = true)
    by (apply Nat.ltb_lt; simpl; lia).
  destruct hi as [[|h]|]; [congruence | |]; cbn [repeatLoop];
    (destruct (p c) eqn:Hp;
     [ rewrite consume_hit by exact Hp; cbn [flat_map rest];
       rewrite Hlt, app_nil_r; reflexivity
     | rewrite consume_miss by exact Hp; reflexivity ]).
Qed.

(** A greedy quantifier over single characters first takes the whole run
    of characters that the class accepts. *)
Lemma many_first (p : ascii -> bool) :
  forall (run tl : list ascii) (hi : option nat) (pv : option ascii)
         (caps : list (nat * list ascii)) (fuel : nat),
    Forall (fun c => p c = true) run ->
    match tl with [] => True | c :: _ => p c = false end ->
    (forall h, hi = Some h -> (length run <= h)%nat) ->
    (length (run ++ tl) <= fuel)%nat ->
    exists pv',
      head (repeatLoop (consume p) true 0 hi fuel
              {| prev := pv; rest := run ++ tl; captures := caps |})
      = Some {| prev := pv'; rest := tl; captures := caps |}.
Proof.
  induction run as [|c run IH]; intros tl hi pv caps fuel Hrun Htl Hhi Hfuel.
  - exists pv. rewrite repeatLoop_enough by exact Hfuel. cbn [app rest].
    destruct tl as [|c tl]; [reflexivity |].
    destruct (decide (hi = Some 0%nat)) as [-> | Hne]; [reflexivity |].
    cbn [length]. rewrite many_unfold by exact Hne. rewrite Htl. reflexivity.
  - inversion Hrun as [|? ? Hc Hrun']; subst.
    rewrite repeatLoop_enough by exact Hfuel. cbn [app rest length].
    assert (Hne : hi <> Some 0%nat).
    { intros ->. specialize (Hhi 0%nat eq_refl). simpl in Hhi. lia. }
    rewrite many_unfold by exact Hne. rewrite Hc.
    destruct (IH tl (pred <$> hi) (Some c) caps (length (run ++ tl)) Hrun' Htl)
      as [pv' Hpv'].
    + intros h Hh. destruct hi as [h0|]; [| discriminate].
      simpl in Hh. injection Hh as <-.
      specialize (Hhi h0 eq_refl). simpl in Hhi. lia.
    + lia.
    + exists pv'. apply head_app_Some. exact Hpv'.
Qed.

(** *** The raw string literal *)

Lemma no_element {A : Type} (l : list A) : (forall x, ~ In x l) -> l = [].
Proof.
  destruct l as [|a l]; [reflexivity |].
  intros H. destruct (H a). left. reflexivity.
Qed.

(** The end of the raw literal, [\)\1Q]: it consumes the parenthesis, the
    delimiter and the quote. *)
Lemma closing_In (d : bool) (delim : list ascii) (st y : MatchState) :
  capture 1 (captures st) = Some delim ->
  In y (rmatch d (Char ")" +> Backref 1 +> Char dquote) st) ->
  length (rest st) = (length delim + 2 + length (rest y))%nat.
Proof.
  intros Hcap. cbn [rmatch].
  rewrite in_flat_map. intros (x1 & H1 & H).
  rewrite in_flat_map in H. destruct H as (x2 & H2 & H3).
  apply consume_In in H1. destruct H1 as [H1 H1c].
  rewrite H1c, Hcap in H2.
  apply consumeText_In in H2. destruct H2 as [H2 _].
  apply consume_In in H3. destruct H3 as [H3 _].
  lia.
Qed.

Lemma closing_short (d : bool) (delim : list ascii) (st : MatchState) :
  capture 1 (captures st) = Some delim ->
  (length (rest st) < length delim + 2)%nat ->
  rmatch d (Char ")" +> Backref 1 +> Char dquote) st = [].
Proof.
  intros Hcap Hlen. apply no_element. intros y Hy.
  apply (closing_In d delim st y Hcap) in Hy. lia.
Qed.

Lemma closing_hit (d : bool) (delim : list ascii) (pv : option ascii)
    (caps : list (nat * list ascii)) :
  capture 1 caps = Some delim ->
  rmatch d (Char ")" +> Backref 1 +> Char dquote)
    {| prev := pv; rest := ")"%char :: delim ++ [dquote]; captures := caps |}
  = [ {| prev := Some dquote; rest := []; captures := caps |} ].
Proof.
  intros Hcap. cbn [rmatch].
  rewrite consume_hit by reflexivity. cbn [flat_map captures].
  rewrite Hcap, app_nil_r.
  destruct (consumeText_hit delim [dquote] (Some ")"%char) caps) as [pv' ->].
  cbn [flat_map]. rewrite consume_hit by reflexivity. reflexivity.
Qed.

(** [.*] followed by the end of the literal: the quantifier gives back
    characters until what is left is exactly the end, so that the group
    holds everything before the last [)delimiter Q]. *)
Lemma star_then_closing (p : ascii -> bool) (d : bool) (delim : list ascii)
    (from : MatchState) (caps : list (nat * list ascii)) :
  (forall c, p c = true) ->
  capture 1 caps = Some delim ->
  forall (content : list ascii) (pv : option ascii),
    head
      (flat_map
         (fun st' =>
            rmatch d (Char ")" +> Backref 1 +> Char dquote) (setCapture 2 from st'))
         (repeatLoop (consume p) true 0 None
            (length (content ++ ")"%char :: delim ++ [dquote]))
            {| prev := pv; rest := content ++ ")"%char :: delim ++ [dquote];
               captures := caps |}))
    = Some {| prev := Some dquote; rest := [];
              captures :=
                (2%nat,
                 take (length (rest from) - length (")"%char :: delim ++ [dquote]))
                   (rest from)) :: caps |}.
Proof.
  intros Hp Hcap.
  induction content as [|c content IH]; intros pv.
  - cbn [app length]. rewrite many_unfold by discriminate.
    rewrite Hp, flat_map_app.
    rewrite flat_map_nil.
    + cbn [app flat_map]. unfold setCapture at 1. cbn [prev rest captures].
      rewrite closing_hit by exact Hcap. reflexivity.
    + intros x Hx.
      apply (repeatLoop_In (consume p) true (consume_captures p)) in Hx.
      cbn [rest captures] in Hx. destruct Hx as [Hlen Hc].
      apply (closing_short d delim).
      * unfold setCapture. cbn [captures capture Nat.eqb]. rewrite Hc. exact Hcap.
      * unfold setCapture. cbn [rest]. rewrite length_app in Hlen.
        simpl in Hlen. lia.
  - cbn [app length]. rewrite many_unfold by discriminate.
    rewrite Hp, flat_map_app.
    apply head_app_Some. apply IH.
Qed.

Lemma take_app_minus (s t : list ascii) :
  take (length (s ++ t) - length t) (s ++ t) = s.
Proof.
  rewrite length_app.
  replace (length s + length t - length t)%nat with (length s) by lia.
  apply take_app_length.
Qed.

Lemma head_map_Some {A B : Type} (f : A -> B) (l : list A) (x : A) :
  head l = Some x -> head (map f l) = Some (f x).
Proof. destruct l; simpl; [discriminate | congruence]. Qed.

Lemma head_singleton {A : Type} (x : A) : head [x] = Some x.
Proof. reflexivity. Qed.

(** The delimiter class of the raw literal. *)
Lemma delimiter_class_paren :
  xorb true (inChars [ "("; ")"; backslash; " " ]%char "("%char) = false.
Proof. reflexivity. Qed.

(** The pattern of the raw literal after its optional prefix, on a raw
    literal: the group [characters] holds the content. *)
Lemma raw_literal_core (delim content : list ascii) (pv : option ascii)
    (caps : list (nat * list ascii)) :
  (length delim <= 16)%nat ->
  Forall (fun c => xorb true (inChars [ "("; ")"; backslash; " " ]%char c) = true)
    delim ->
  head
    (rmatch true
       (Char "R" +> Char dquote +>
        Group 1 None
          (Repeat true 0 (Some 16%nat)
             (Class true [ "("; ")"; backslash; " " ]%char)) +>
        Char "(" +>
        Group 2 (Some "characters"%string) (Repeat true 0 None Dot) +>
        Char ")" +> Backref 1 +> Char dquote)
       {| prev := pv;
          rest := "R"%char :: dquote :: delim ++ "("%char :: content
                    ++ ")"%char :: delim ++ [dquote];
          captures := caps |})
  = Some {| prev := Some dquote; rest := [];
            captures := (2%nat, content) :: (1%nat, delim) :: caps |}.
Proof.
  intros Hlen Hdelim.
  set (tail := "("%char :: content ++ ")"%char :: delim ++ [dquote]).
  destruct (many_first
              (fun c => xorb true (inChars [ "("; ")"; backslash; " " ]%char c))
              delim tail (Some 16%nat) (Some dquote) caps
              (length (delim ++ tail)) Hdelim delimiter_class_paren)
    as [pv1 H1].
  { intros h [= <-]. exact Hlen. }
  { lia. }
  eapply rmatch_Seq_first.
  { cbn [rmatch]. rewrite consume_hit by reflexivity. apply head_singleton. }
  eapply rmatch_Seq_first.
  { cbn [rmatch]. rewrite consume_hit by reflexivity. apply head_singleton. }
  eapply rmatch_Seq_first.
  { cbn [rmatch rest]. fold tail. rewrite (head_map_Some _ _ _ H1).
    unfold setCapture, consumed. cbn [prev rest captures].
    rewrite take_app_minus. reflexivity. }
  eapply rmatch_Seq_first.
  { cbn [rmatch]. unfold tail. rewrite consume_hit by reflexivity.
    apply head_singleton. }
  rewrite rmatch_Seq, rmatch_Group, rmatch_Repeat_Dot. cbn [rest].
  rewrite flat_map_of_map.
  rewrite (star_then_closing
             (fun c => true || negb (Ascii.eqb c (ascii_of_nat 10)))
             true delim _ ((1%nat, delim) :: caps) (fun c => eq_refl) eq_refl).
  cbn [rest]. rewrite take_app_minus. reflexivity.
Qed.

(** *** The encoding prefix *)

Lemma repeatLoop_S (body : MatchState -> list MatchState) (greedy : bool)
    (lo : nat) (hi : option nat) (fuel : nat) (st : MatchState) :
  hi <> Some 0%nat ->
  repeatLoop body greedy lo hi (S fuel) st
  = let stop := match lo with O => [st] | S _ => [] end in
    let more :=
      flat_map
        (fun st' =>
           if (length (rest st') <? length (rest st))%nat
           then repeatLoop body greedy (pred lo) (pred <$> hi) fuel st'
           else [])
        (body st) in
    if greedy then more ++ stop else stop ++ more.
Proof. destruct hi as [[|h]|]; [congruence | reflexivity | reflexivity]. Qed.

Lemma wordBoundary_start (c : ascii) (tl : list ascii)
    (caps : list (nat * list ascii)) :
  isWordChar c = true ->
  atWordBoundary {| prev := None; rest := c :: tl; captures := caps |} = true.
Proof. intros H. unfold atWordBoundary. simpl. exact H. Qed.

(** At the start of the subject, on a prefix that is followed by something
    other than 8, the first match of [(?:\bu8|\b[LuU])] is the prefix. *)
Lemma encodingPrefix_first (d : bool) (pre : list ascii) (x : ascii)
    (tl : list ascii) (caps : list (nat * list ascii)) :
  In pre encodingPrefixes ->
  x <> "8"%char ->
  exists pv' l,
    rmatch d encodingPrefix
      {| prev := None; rest := pre ++ x :: tl; captures := caps |}
    = {| prev := pv'; rest := x :: tl; captures := caps |} :: l.
Proof.
  intros Hpre Hx.
  assert (H8 : Ascii.eqb "8" x = false).
  { apply Ascii.eqb_neq. congruence. }
  unfold encodingPrefix.
  destruct Hpre as [<- | [<- | [<- | [<- | []]]]];
    cbn [qs list_ascii_of_string app]; cbn [rmatch];
    rewrite wordBoundary_start by reflexivity; cbn [flat_map app].
  - (* u8 *)
    rewrite (consume_hit (Ascii.eqb "u")) by reflexivity. cbn [flat_map app].
    rewrite (consume_hit (Ascii.eqb "8")) by reflexivity. cbn [flat_map app].
    eexists. eexists. reflexivity.
  - (* L *)
    rewrite (consume_miss (Ascii.eqb "u")) by reflexivity. cbn [flat_map app].
    rewrite consume_hit by reflexivity.
    eexists. eexists. reflexivity.
  - (* u *)
    rewrite (consume_hit (Ascii.eqb "u")) by reflexivity. cbn [flat_map app].
    rewrite (consume_miss (Ascii.eqb "8")) by exact H8. cbn [flat_map app].
    rewrite consume_hit by reflexivity.
    eexists. eexists. reflexivity.
  - (* U *)
    rewrite (consume_miss (Ascii.eqb "u")) by reflexivity. cbn [flat_map app].
    rewrite consume_hit by reflexivity.
    eexists. eexists. reflexivity.
Qed.

Lemma encodingPrefix_not_empty (pre : list ascii) :
  In pre encodingPrefixes -> exists c pre', pre = c :: pre'.
Proof.
  intros [<- | [<- | [<- | [<- | []]]]]; eexists; eexists; reflexivity.
Qed.

(** [(?:\bu8|\b[LuU])+?] takes one prefix first. *)
Lemma prefix_plus_first (d : bool) (pre : list ascii) (x : ascii)
    (tl : list ascii) (caps : list (nat * list ascii)) :
  In pre encodingPrefixes ->
  x <> "8"%char ->
  exists pv',
    head (rmatch d (Repeat false 1 None encodingPrefix)
            {| prev := None; rest := pre ++ x :: tl; captures := caps |})
    = Some {| prev := pv'; rest := x :: tl; captures := caps |}.
Proof.
  intros Hpre Hx.
  destruct (encodingPrefix_first d pre x tl caps Hpre Hx) as (pv' & l & Hbody).
  destruct (encodingPrefix_not_empty pre Hpre) as (c & pre' & ->).
  exists pv'. rewrite rmatch_Repeat. cbn [rest app length].
  rewrite repeatLoop_S by discriminate. cbn zeta. cbn [app rest].
  cbn [app] in Hbody. rewrite Hbody. cbn [flat_map rest].
  assert (Hlt : (length (x :: tl) <? length (c :: pre' ++ x :: tl))%nat = true).
  { apply Nat.ltb_lt. simpl. rewrite length_app. simpl. lia. }
  rewrite Hlt. apply head_app_Some. apply repeatLoop_lazy_first.
Qed.

(** [(?:\bu8|\b[LuU])??] on a prefix that [R] follows: the match without
    the prefix fails at once, the next one takes the prefix. *)
Lemma prefix_optional_then (d : bool) (pre : list ascii) (tl : list ascii)
    (r : regex) (y : MatchState) :
  In pre encodingPrefixes ->
  (forall pv',
     head (rmatch d (Char "R" +> r)
             {| prev := pv'; rest := "R"%char :: tl; captures := [] |})
     = Some y) ->
  head (rmatch d (Repeat false 0 (Some 1%nat) encodingPrefix +> Char "R" +> r)
          {| prev := None; rest := pre ++ "R"%char :: tl; captures := [] |})
  = Some y.
Proof.
  intros Hpre Hy.
  destruct (encodingPrefix_first d pre "R" tl [] Hpre) as (pv' & l & Hbody);
    [discriminate |].
  assert (Hmiss :
    rmatch d (Char "R" +> r)
      {| prev := None; rest := pre ++ "R"%char :: tl; captures := [] |} = []).
  { rewrite rmatch_Seq, rmatch_Char.
    destruct Hpre as [<- | [<- | [<- | [<- | []]]]];
      cbn [qs list_ascii_of_string app];
      rewrite consume_miss by reflexivity; reflexivity. }
  destruct (encodingPrefix_not_empty pre Hpre) as (c & pre' & ->).
  rewrite rmatch_Seq, rmatch_Repeat. cbn [rest app length].
  rewrite repeatLoop_S by discriminate. cbn zeta. cbn [app rest].
  cbn [app] in Hbody, Hmiss. rewrite Hbody. cbn [flat_map rest].
  rewrite Hmiss. cbn [app].
  assert (Hlt : (length ("R"%char :: tl) <? length (c :: pre' ++ "R"%char :: tl))%nat
                = true).
  { apply Nat.ltb_lt. simpl. rewrite length_app. simpl. lia. }
  rewrite Hlt. cbn [fmap option_fmap option_map pred].
  destruct (length (pre' ++ "R"%char :: tl)); cbn [repeatLoop app flat_map];
    apply head_app_Some; apply Hy.
Qed.

(** ** cleanQuote on a token *)

Lemma dropWhile_keep (p : ascii -> bool) (c : ascii) (s : list ascii) :
  p c = false -> dropWhile p (c :: s) = c :: s.
Proof. intros H. simpl. rewrite H. reflexivity. Qed.

(** Trimming changes nothing between two characters that are not white
    space. *)
Lemma trimBy_id (p : ascii -> bool) (c d : ascii) (s : list ascii) :
  p c = false -> p d = false -> trimBy p (c :: s ++ [d]) = c :: s ++ [d].
Proof.
  intros Hc Hd. unfold trimBy.
  rewrite (dropWhile_keep p c) by exact Hc.
  change (c :: s ++ [d]) with ((c :: s) ++ [d]).
  rewrite rev_app_distr. cbn [rev app].
  rewrite (dropWhile_keep p d) by exact Hd.
  change (d :: rev s ++ [c]) with (rev [d] ++ rev (c :: s)).
  rewrite <- rev_app_distr. apply rev_involutive.
Qed.

Lemma trimBy_id_prefixed (p : ascii -> bool) (c d : ascii) (pre s : list ascii) :
  p c = false -> p d = false ->
  trimBy p ((c :: pre) ++ s ++ [d]) = (c :: pre) ++ s ++ [d].
Proof.
  intros Hc Hd. rewrite app_assoc. apply (trimBy_id p c d (pre ++ s) Hc Hd).
Qed.

Lemma search_first (d : bool) (r : regex) (before : option ascii)
    (subject : list ascii) (st : MatchState) :
  head (rmatch d r {| prev := before; rest := subject; captures := [] |}) = Some st ->
  search d r before subject = Some st.
Proof. intros H. destruct subject; simpl; rewrite H; reflexivity. Qed.

Lemma characters_of_rawStringLiteral :
  groupNumber "characters" (pattern rawStringLiteral) = Some 2%nat.
Proof. reflexivity. Qed.

Lemma characters_of_stringLiteral :
  groupNumber "characters" (pattern stringLiteral) = Some 1%nat.
Proof. reflexivity. Qed.

Lemma match_first (re : QRegularExpression) (subject : list ascii)
    (st : MatchState) :
  head (rmatch (DotMatchesEverythingOption re) (pattern re)
          {| prev := None; rest := subject; captures := [] |}) = Some st ->
  match_ re subject = {| regularExpression := re; matched := Some st |}.
Proof. intros H. unfold match_. rewrite (search_first _ _ _ _ _ H). reflexivity. Qed.

(** The path of [cleanQuote] through the raw pattern. *)
Lemma cleanQuoteToken_raw (token : list ascii) (st : MatchState) :
  isEmpty token = false ->
  trimmed token = token ->
  0 < indexOf dquote token ->
  at_ token (indexOf dquote token - 1) = Some "R"%char ->
  head (rmatch true (pattern rawStringLiteral)
          {| prev := None; rest := token; captures := [] |}) = Some st ->
  cleanQuoteToken token = default [] (capture 2 (captures st)).
Proof.
  intros Hne Htrim Hidx Hat Hm.
  unfold cleanQuoteToken, fromStdString. rewrite Hne, Htrim.
  destruct (Z.leb_spec (indexOf dquote token) 0) as [Hle | _]; [lia |].
  rewrite bool_decide_eq_true_2 by exact Hat.
  rewrite (match_first rawStringLiteral token st Hm).
  unfold hasMatch, captured. cbn [matched regularExpression].
  rewrite characters_of_rawStringLiteral. reflexivity.
Qed.

(** The path of [cleanQuote] through the pattern of ordinary literals. *)
Lemma cleanQuoteToken_ordinary (token : list ascii) (c : ascii) (st : MatchState) :
  isEmpty token = false ->
  trimmed token = token ->
  0 < indexOf dquote token ->
  at_ token (indexOf dquote token - 1) = Some c ->
  c <> "R"%char ->
  head (rmatch false (pattern stringLiteral)
          {| prev := None; rest := token; captures := [] |}) = Some st ->
  cleanQuoteToken token = default [] (capture 1 (captures st)).
Proof.
  intros Hne Htrim Hidx Hat Hc Hm.
  unfold cleanQuoteToken, fromStdString. rewrite Hne, Htrim.
  destruct (Z.leb_spec (indexOf dquote token) 0) as [Hle | _]; [lia |].
  rewrite bool_decide_eq_false_2 by (rewrite Hat; congruence).
  rewrite (match_first stringLiteral token st Hm).
  unfold hasMatch, captured. cbn [matched regularExpression].
  rewrite characters_of_stringLiteral. reflexivity.
Qed.

(** The first quote of a prefixed token and the character before it. *)
Lemma prefixed_front (pre : list ascii) (tl : list ascii) :
  In pre encodingPrefixes ->
  exists c pre' last,
    pre = c :: pre'
    /\ QChar_isSpace c = false
    /\ 0 < indexOf dquote (pre ++ dquote :: tl)
    /\ at_ (pre ++ dquote :: tl) (indexOf dquote (pre ++ dquote :: tl) - 1)
       = Some last
    /\ last <> "R"%char
    /\ 0 < indexOf dquote (pre ++ "R"%char :: dquote :: tl)
    /\ at_ (pre ++ "R"%char :: dquote :: tl)
         (indexOf dquote (pre ++ "R"%char :: dquote :: tl) - 1)
       = Some "R"%char.
Proof.
  intros [<- | [<- | [<- | [<- | []]]]];
    eexists; eexists; eexists;
    (split; [reflexivity |]); (split; [reflexivity |]);
    (split; [reflexivity |]); (split; [reflexivity |]);
    (split; [discriminate |]); split; reflexivity.
Qed.

Lemma rawLiteral_unfold (delim content : list ascii) :
  rawLiteral delim content
  = "R"%char :: dquote :: delim ++ "("%char :: content
      ++ ")"%char :: delim ++ [dquote].
Proof.
  unfold rawLiteral, quoted.
  rewrite <- app_assoc. cbn [app]. rewrite <- app_assoc. reflexivity.
Qed.

(** A raw literal, with or without encoding prefix: the content between
    the delimited parentheses. *)
Lemma cleanQuoteToken_rawLiteral (pre delim content : list ascii) :
  pre = [] \/ In pre encodingPrefixes ->
  (length delim <= 16)%nat ->
  forallb isDelimiterChar delim = true ->
  cleanQuoteToken (pre ++ rawLiteral delim content) = content.
Proof.
  intros Hpre Hlen Hdelim.
  assert (Hclass :
    Forall (fun c => xorb true (inChars [ "("; ")"; backslash; " " ]%char c) = true)
      delim).
  { apply List.Forall_forall. intros c Hc.
    rewrite forallb_forall in Hdelim. exact (Hdelim c Hc). }
  pose (st := {| prev := Some dquote; rest := [];
                 captures := [(2%nat, content); (1%nat, delim)] |}).
  assert (Hcore : forall pv,
    head (rmatch true
            (Char "R" +> Char dquote +>
             Group 1 None
               (Repeat true 0 (Some 16%nat)
                  (Class true [ "("; ")"; backslash; " " ]%char)) +>
             Char "(" +>
             Group 2 (Some "characters"%string) (Repeat true 0 None Dot) +>
             Char ")" +> Backref 1 +> Char dquote)
            {| prev := pv; rest := rawLiteral delim content; captures := [] |})
    = Some st).
  { intros pv. rewrite rawLiteral_unfold.
    exact (raw_literal_core delim content pv [] Hlen Hclass). }
  unfold rawLiteral, quoted in *.
  set (inner := delim ++ "("%char :: content ++ ")"%char :: delim) in *.
  destruct Hpre as [-> | Hpre].
  - (* no prefix *)
    cbn [app].
    rewrite (cleanQuoteToken_raw _ st).
    + reflexivity.
    + reflexivity.
    + apply (trimBy_id QChar_isSpace "R" dquote (dquote :: inner)); reflexivity.
    + reflexivity.
    + reflexivity.
    + unfold rawStringLiteral, pattern.
      eapply rmatch_Seq_first; [| exact (Hcore None)].
      rewrite rmatch_Repeat. apply repeatLoop_lazy_first.
  - (* u8, L, u or U *)
    destruct (prefixed_front pre (inner ++ [dquote]) Hpre)
      as (c & pre' & last & Hshape & Hc & _ & _ & _ & Hidx & Hat).
    rewrite (cleanQuoteToken_raw _ st).
    + reflexivity.
    + rewrite Hshape. reflexivity.
    + rewrite Hshape.
      apply (trimBy_id_prefixed QChar_isSpace c dquote pre'
               ("R"%char :: dquote :: inner) Hc). reflexivity.
    + exact Hidx.
    + exact Hat.
    + unfold rawStringLiteral, pattern.
      apply prefix_optional_then; [exact Hpre | exact Hcore].
Qed.

(** *** The ordinary string literal *)

Lemma escapeBlocks_head (s : list ascii) :
  escapeBlocks s ->
  match s ++ [dquote] with [] => True | c :: _ => isPlainChar c = false end.
Proof. intros [|e run s' _ _ _]; reflexivity. Qed.

(** A literal body is a run of plain characters and then escape blocks. *)
Lemma isLiteralBody_blocks (n : nat) :
  forall s : list ascii,
    (length s <= n)%nat ->
    isLiteralBody s = true ->
    exists run tail,
      s = run ++ tail
      /\ Forall (fun c => isPlainChar c = true) run
      /\ escapeBlocks tail.
Proof.
  induction n as [|n IH]; intros s Hn Hs.
  - destruct s; [| simpl in Hn; lia].
    exists [], []. repeat split; constructor.
  - destruct s as [|c tl].
    { exists [], []. repeat split; constructor. }
    cbn [isLiteralBody] in Hs.
    destruct (Ascii.eqb c backslash) eqn:Hc.
    + (* an escape sequence *)
      apply Ascii.eqb_eq in Hc. subst c.
      destruct tl as [|e tl']; [discriminate |].
      apply andb_true_iff in Hs. destruct Hs as [He Hs].
      destruct (IH tl') as (run & tail & -> & Hrun & Htail);
        [simpl in Hn; lia | exact Hs |].
      exists [], (backslash :: e :: run ++ tail).
      repeat split; [constructor |].
      constructor; assumption.
    + (* a plain character *)
      apply andb_true_iff in Hs. destruct Hs as [Hq Hs].
      destruct (IH tl) as (run & tail & -> & Hrun & Htail);
        [simpl in Hn; lia | exact Hs |].
      exists (c :: run), tail.
      repeat split; [| exact Htail].
      constructor; [| exact Hrun].
      unfold isPlainChar, inChars. cbn [existsb xorb].
      apply negb_true_iff in Hq. rewrite Hq, Hc. reflexivity.
Qed.

(** The loop over escape sequences, on escape blocks before the closing
    quote: its first match takes all the blocks. *)
Lemma escapes_first (s : list ascii) :
  escapeBlocks s ->
  forall (pv : option ascii) (caps : list (nat * list ascii)) (fuel : nat),
    (length (s ++ [dquote]) <= fuel)%nat ->
    exists pv',
      head
        (repeatLoop
           (rmatch false
              (Char backslash +> Dot +>
               Repeat true 0 None (Class true [ dquote; backslash ])))
           true 0 None fuel
           {| prev := pv; rest := s ++ [dquote]; captures := caps |})
      = Some {| prev := pv'; rest := [dquote]; captures := caps |}.
Proof.
  induction 1 as [|e run s He Hrun Hs IH]; intros pv caps fuel Hfuel.
  - exists pv. rewrite repeatLoop_enough by exact Hfuel. cbn [app rest length].
    rewrite repeatLoop_S by discriminate. cbn zeta.
    rewrite rmatch_Seq, rmatch_Char.
    rewrite consume_miss by reflexivity. reflexivity.
  - destruct (many_first (fun c => xorb true (inChars [ dquote; backslash ] c))
                run (s ++ [dquote]) None (Some e) caps
                (length (run ++ s ++ [dquote])) Hrun (escapeBlocks_head s Hs))
      as [pv1 H1]; [discriminate | lia |].
    destruct (IH pv1 caps (length (e :: (run ++ s) ++ [dquote]))) as [pv' Hpv'].
    { simpl. rewrite !length_app. simpl. lia. }
    exists pv'.
    rewrite repeatLoop_enough by exact Hfuel. cbn [app rest length].
    rewrite repeatLoop_S by discriminate. cbn zeta.
    apply head_app_Some.
    eapply head_flat_map.
    + rewrite rmatch_Seq, rmatch_Char.
      rewrite consume_hit by reflexivity. cbn [flat_map]. rewrite app_nil_r.
      rewrite rmatch_Seq, rmatch_Dot.
      rewrite consume_hit by exact He. cbn [flat_map]. rewrite app_nil_r.
      rewrite rmatch_Repeat_Class. cbn [rest].
      rewrite <- app_assoc. exact H1.
    + cbn [rest].
      assert (Hlt : (length (s ++ [dquote])
                     <? length (backslash :: e :: (run ++ s) ++ [dquote]))%nat = true).
      { apply Nat.ltb_lt. simpl. rewrite !length_app. simpl. lia. }
      rewrite Hlt. exact Hpv'.
Qed.

(** The pattern of the ordinary literal after its prefix: the group
    [characters] holds the body, escape sequences as they are. *)
Lemma ordinary_literal_core (body : list ascii) (pv : option ascii)
    (caps : list (nat * list ascii)) :
  isLiteralBody body = true ->
  head
    (rmatch false
       (Char dquote +>
        Group 1 (Some "characters"%string)
          (Repeat true 0 None (Class true [ dquote; backslash ]) +>
           Repeat true 0 None
             (Char backslash +> Dot +>
              Repeat true 0 None (Class true [ dquote; backslash ]))) +>
        Char dquote)
       {| prev := pv; rest := dquote :: body ++ [dquote]; captures := caps |})
  = Some {| prev := Some dquote; rest := []; captures := (1%nat, body) :: caps |}.
Proof.
  intros Hbody.
  destruct (isLiteralBody_blocks (length body) body (le_n _) Hbody)
    as (run & tail & Hsplit & Hrun & Htail).
  destruct (many_first (fun c => xorb true (inChars [ dquote; backslash ] c))
              run (tail ++ [dquote]) None (Some dquote) caps
              (length (run ++ tail ++ [dquote])) Hrun (escapeBlocks_head tail Htail))
    as [pv1 H1]; [discriminate | lia |].
  destruct (escapes_first tail Htail pv1 caps (length (tail ++ [dquote])) (le_n _))
    as [pv2 H2].
  eapply rmatch_Seq_first.
  { rewrite rmatch_Char, consume_hit by reflexivity. apply head_singleton. }
  eapply rmatch_Seq_first.
  { rewrite rmatch_Group.
    apply head_map_Some.
    eapply rmatch_Seq_first.
    - rewrite rmatch_Repeat_Class. cbn [rest].
      rewrite Hsplit, <- app_assoc. exact H1.
    - rewrite rmatch_Repeat. cbn [rest]. exact H2. }
  unfold setCapture, consumed. cbn [prev rest captures].
  rewrite take_app_minus.
  rewrite rmatch_Char, consume_hit by reflexivity. reflexivity.
Qed.

(** An ordinary literal with an encoding prefix: the text between the
    quotes. *)
Lemma cleanQuoteToken_prefixedLiteral (pre body : list ascii) :
  In pre encodingPrefixes ->
  isLiteralBody body = true ->
  cleanQuoteToken (pre ++ quoted body) = body.
Proof.
  intros Hpre Hbody. unfold quoted.
  destruct (prefixed_front pre (body ++ [dquote]) Hpre)
    as (c & pre' & last & Hshape & Hc & Hidx & Hat & Hlast & _ & _).
  destruct (prefix_plus_first false pre dquote (body ++ [dquote]) [] Hpre)
    as [pv' Hprefix]; [discriminate |].
  rewrite (cleanQuoteToken_ordinary _ last
             {| prev := Some dquote; rest := []; captures := [(1%nat, body)] |}).
  - reflexivity.
  - rewrite Hshape. reflexivity.
  - rewrite Hshape.
    apply (trimBy_id_prefixed QChar_isSpace c dquote pre' (dquote :: body) Hc).
    reflexivity.
  - exact Hidx.
  - exact Hat.
  - exact Hlast.
  - unfold stringLiteral, pattern.
    eapply rmatch_Seq_first; [exact Hprefix |].
    apply ordinary_literal_core. exact Hbody.
Qed.

(** A literal without prefix: the text between the quotes, whatever it
    is. *)
Lemma cleanQuoteToken_plainLiteral (s : list ascii) :
  cleanQuoteToken (quoted s) = s.
Proof.
  unfold cleanQuoteToken, quoted, fromStdString. cbn [isEmpty].
  unfold trimmed. rewrite trimBy_id by reflexivity.
  change (indexOf dquote (dquote :: s ++ [dquote])) with 0.
  cbn [Z.leb Z.compare].
  rewrite cleanQuote_unfold. cbn [isEmpty].
  unfold trim. rewrite trimBy_id by reflexivity.
  unfold consume_front. rewrite startswith_dquote.
  change (drop (length [dquote]) (dquote :: s ++ [dquote])) with (s ++ [dquote]).
  cbn [negb andb].
  unfold consume_back. rewrite endswith_snoc.
  change (length [dquote]) with 1%nat.
  rewrite take_snoc. reflexivity.
Qed.

(** C2. [cleanQuote(token)] strips the outer syntax of a string literal
    and nothing else.  A plain literal gives the text between its quotes.
    A raw literal, R before the opening quote and a delimiter of at most
    16 characters without parenthesis, backslash or space, gives the
    content between the delimited parentheses unchanged.  An ordinary
    literal with prefix u8, L, u or U gives its body with the escape
    sequences still encoded. *)
Theorem cleanQuote_strips_literal_syntax :
  (forall s : list ascii, cleanQuoteToken (quoted s) = s)
  /\ (forall pre delim content : list ascii,
        pre = [] \/ In pre encodingPrefixes ->
        (length delim <= 16)%nat ->
        forallb isDelimiterChar delim = true ->
        cleanQuoteToken (pre ++ rawLiteral delim content) = content)
  /\ (forall pre body : list ascii,
        In pre encodingPrefixes ->
        isLiteralBody body = true ->
        cleanQuoteToken (pre ++ quoted body) = body).
Proof.
  split; [exact cleanQuoteToken_plainLiteral |].
  split; [exact cleanQuoteToken_rawLiteral | exact cleanQuoteToken_prefixedLiteral].
Qed.

Lemma cleanQuote_strips_literal_syntax_witness :
  cleanQuoteToken (quoted (qs "abc")) = qs "abc"
  /\ cleanQuoteToken (rawLiteral [] exampleRawContent) = exampleRawContent
  /\ cleanQuoteToken (qs "u8" ++ rawLiteral (qs "xy") exampleRawContent)
     = exampleRawContent
  /\ cleanQuoteToken (qs "L" ++ quoted exampleEscapedBody) = exampleEscapedBody.
Proof.
  destruct cleanQuote_strips_literal_syntax as (Hplain & Hraw & Hordinary).
  split; [apply Hplain |].
  split; [apply (Hraw [] [] exampleRawContent);
          [left; reflexivity | simpl; lia | reflexivity] |].
  split; [apply (Hraw (qs "u8") (qs "xy") exampleRawContent);
          [right; left; reflexivity | simpl; lia | reflexivity] |].
  apply (Hordinary (qs "L") exampleEscapedBody);
    [right; left; reflexivity | reflexivity].
Defined.

(** A delimiter of 17 characters is not one of a raw literal: the token
    comes back as it is. *)
Example rawLiteral_delimiter_of_17 :
  cleanQuoteToken (rawLiteral (qs "12345678901234567") (qs "abc"))
  = rawLiteral (qs "12345678901234567") (qs "abc").
Proof. vm_compute. reflexivity. Qed.

(** C3, as amended.  For a token that is not taken for a literal: when
    the first quote of the trimmed token is not at its start, the answer
    is the trimmed token; when there is no quote, or the trimmed token
    starts with one, the answer is the empty string. *)
Theorem cleanQuote_of_unrecognized_token (token : list ascii) :
  recognizedLiteral token = false ->
  cleanQuoteToken token
  = if 0 <? indexOf dquote (trimmed token) then trimmed token else [].
Proof.
  unfold recognizedLiteral, cleanQuoteToken, fromStdString.
  destruct token as [|c0 token'].
  { intros _. reflexivity. }
  cbn [isEmpty].
  set (token := c0 :: token').
  destruct (Z.leb_spec (indexOf dquote (trimmed token)) 0) as [Hle | Hgt].
  - intros Hrec.
    destruct (Z.ltb_spec 0 (indexOf dquote (trimmed token))) as [Hlt | _]; [lia |].
    rewrite cleanQuote_unfold. unfold token at 1. cbn [isEmpty].
    unfold consume_front.
    change (length [dquote]) with 1%nat.
    destruct (startswith [dquote] (trim token)); [| reflexivity].
    cbn [andb negb] in *.
    unfold consume_back. rewrite Hrec. reflexivity.
  - intros Hrec.
    destruct (Z.ltb_spec 0 (indexOf dquote (trimmed token))) as [_ | Hge]; [| lia].
    rewrite Hrec. reflexivity.
Qed.

Lemma cleanQuote_of_unrecognized_token_witness :
  recognizedLiteral exampleMalformedToken = false
  /\ cleanQuoteToken exampleMalformedToken = qs "a" ++ [dquote] ++ qs "b".
Proof.
  split; [vm_compute; reflexivity |].
  rewrite (cleanQuote_of_unrecognized_token exampleMalformedToken);
    vm_compute; reflexivity.
Defined.

(** C3, as stated, fails.  A token without any quote is no literal for
    either pattern, and the answer is the empty string, not the token; and
    where the token does come back, it has lost the blanks around it. *)
Lemma cleanQuote_unrecognized_token_not_returned :
  (recognizedLiteral (qs "abc") = false
   /\ hasMatch (match_ rawStringLiteral (qs "abc")) = false
   /\ hasMatch (match_ stringLiteral (qs "abc")) = false
   /\ cleanQuoteToken (qs "abc") = []
   /\ cleanQuoteToken (qs "abc") <> qs "abc")
  /\ (recognizedLiteral exampleMalformedToken = false
      /\ cleanQuoteToken exampleMalformedToken <> exampleMalformedToken).
Proof.
  split.
  - repeat split; try (vm_compute; reflexivity). vm_compute. discriminate.
  - split; [vm_compute; reflexivity | vm_compute; discriminate].
Qed.

(** * Further properties of cpp_clang.h *)

(** ** The version macro *)

Lemma land_shiftl_low (a b k : Z) :
  0 <= k -> 0 <= b < 2 ^ k -> Z.land (Z.shiftl a k) b = 0.
Proof.
  intros Hk Hb. apply Z.bits_inj'. intros n Hn.
  rewrite Z.land_spec, Z.bits_0.
  destruct (Z.lt_ge_cases n k) as [Hlt | Hge].
  - rewrite Z.shiftl_spec_low by exact Hlt. reflexivity.
  - rewrite <- (Z.mod_small b (2 ^ k)) by exact Hb.
    rewrite Z.mod_pow2_bits_high by lia. apply andb_false_r.
Qed.

(** In range, the encoding is the number written in base 256. *)
Lemma version_as_sum (major minor patch : Z) :
  0 <= minor < 2 ^ 8 -> 0 <= patch < 2 ^ 8 ->
  LUPDATE_CLANG_VERSION_CHECK major minor patch
  = major * 65536 + minor * 256 + patch.
Proof.
  intros Hminor Hpatch. unfold LUPDATE_CLANG_VERSION_CHECK.
  assert (H1 : Z.lor (Z.shiftl major 16) (Z.shiftl minor 8)
               = Z.shiftl (Z.lor (Z.shiftl major 8) minor) 8).
  { rewrite Z.shiftl_lor, Z.shiftl_shiftl by lia. reflexivity. }
  rewrite H1.
  pose proof (Z.add_lor_land (Z.shiftl (Z.lor (Z.shiftl major 8) minor) 8) patch) as H2.
  rewrite land_shiftl_low in H2 by lia.
  pose proof (Z.add_lor_land (Z.shiftl major 8) minor) as H3.
  rewrite land_shiftl_low in H3 by lia.
  rewrite !Z.shiftl_mul_pow2 in * by lia.
  change (2 ^ 8) with 256 in *. lia.
Qed.

(** X1. For components that fit their fields, comparing two encoded
    versions as numbers is comparing the versions component by
    component. *)
Theorem version_encoding_keeps_order (major minor patch major' minor' patch' : Z) :
  versionInRange major minor patch ->
  versionInRange major' minor' patch' ->
  (LUPDATE_CLANG_VERSION_CHECK major minor patch
   ?= LUPDATE_CLANG_VERSION_CHECK major' minor' patch')
  = compareVersions (major, minor, patch) (major', minor', patch').
Proof.
  intros (Hm & Hn & Hp) (Hm' & Hn' & Hp').
  rewrite !version_as_sum by assumption.
  unfold compareVersions. change (2 ^ 8) with 256 in *.
  destruct (Z.compare_spec major major') as [-> | H | H].
  - destruct (Z.compare_spec minor minor') as [-> | H | H].
    + destruct (Z.compare_spec patch patch') as [-> | H | H].
      * apply Z.compare_refl.
      * apply Z.compare_lt_iff. lia.
      * apply Z.compare_gt_iff. lia.
    + apply Z.compare_lt_iff. lia.
    + apply Z.compare_gt_iff. lia.
  - apply Z.compare_lt_iff. lia.
  - apply Z.compare_gt_iff. lia.
Qed.

Lemma version_encoding_keeps_order_witness :
  versionInRange 9 255 255 /\ versionInRange 10 0 0
  /\ (LUPDATE_CLANG_VERSION_CHECK 9 255 255 ?= LUPDATE_CLANG_VERSION_CHECK 10 0 0)
     = Lt.
Proof.
  assert (H1 : versionInRange 9 255 255) by (unfold versionInRange; lia).
  assert (H2 : versionInRange 10 0 0) by (unfold versionInRange; lia).
  split; [exact H1 |]. split; [exact H2 |].
  rewrite (version_encoding_keeps_order 9 255 255 10 0 0 H1 H2). reflexivity.
Defined.

(** X2. The test that selects the code for clang 10 and later holds
    exactly for the versions whose major number is at least 10. *)
Theorem clang_version_test_is_major_at_least_10 (major minor patch : Z) :
  versionInRange major minor patch ->
  clangAtLeast10 major minor patch = true <-> 10 <= major.
Proof.
  intros (Hm & Hn & Hp). unfold clangAtLeast10.
  rewrite (version_as_sum major minor patch) by assumption.
  rewrite (version_as_sum 10 0 0) by lia.
  change (2 ^ 8) with 256 in *.
  rewrite Z.geb_leb, Z.leb_le. lia.
Qed.

Lemma clang_version_test_is_major_at_least_10_witness :
  versionInRange 15 0 7 /\ clangAtLeast10 15 0 7 = true.
Proof.
  assert (H : versionInRange 15 0 7) by (unfold versionInRange; lia).
  split; [exact H |].
  apply (clang_version_test_is_major_at_least_10 15 0 7 H). lia.
Defined.

(** ** Trimming *)

Lemma dropWhile_all (p : ascii -> bool) (s : list ascii) :
  forallb p s = true -> dropWhile p s = [].
Proof.
  induction s as [|c s IH]; simpl; [reflexivity |].
  intros H. apply andb_true_iff in H. destruct H as [Hc Hs].
  rewrite Hc. apply IH. exact Hs.
Qed.

Lemma dropWhile_app (p : ascii -> bool) (s t : list ascii) :
  dropWhile p (s ++ t)
  = if forallb p s then dropWhile p t else dropWhile p s ++ t.
Proof.
  induction s as [|c s IH]; simpl; [reflexivity |].
  destruct (p c); simpl; [exact IH | reflexivity].
Qed.

Lemma dropWhile_split (p : ascii -> bool) (s : list ascii) :
  exists a, s = a ++ dropWhile p s /\ forallb p a = true.
Proof.
  induction s as [|c s (a & Ha & Hp)]; simpl.
  - exists []. split; reflexivity.
  - destruct (p c) eqn:Hc.
    + exists (c :: a). simpl. rewrite Hc, Hp. split; [congruence | reflexivity].
    + exists []. split; reflexivity.
Qed.

Lemma forallb_rev (p : ascii -> bool) (s : list ascii) :
  forallb p s = true -> forallb p (rev s) = true.
Proof.
  rewrite !forallb_forall. intros H x Hx. apply H. apply in_rev. exact Hx.
Qed.

(** White space around a text does not change what is left after the
    trim. *)
Lemma trimBy_pad (p : ascii -> bool) (ws s ws' : list ascii) :
  forallb p ws = true -> forallb p ws' = true ->
  trimBy p (ws ++ s ++ ws') = trimBy p s.
Proof.
  intros Hws Hws'. unfold trimBy.
  rewrite dropWhile_app, Hws, dropWhile_app.
  destruct (forallb p s) eqn:Hs.
  - rewrite (dropWhile_all p ws' Hws'), (dropWhile_all p s Hs). reflexivity.
  - rewrite rev_app_distr, dropWhile_app, (forallb_rev p ws' Hws'). reflexivity.
Qed.

(** The trimmed text is the text without white space at both ends. *)
Lemma trimBy_infix (p : ascii -> bool) (s : list ascii) :
  exists a b,
    s = a ++ trimBy p s ++ b /\ forallb p a = true /\ forallb p b = true.
Proof.
  destruct (dropWhile_split p s) as (a & Ha & Hpa).
  destruct (dropWhile_split p (rev (dropWhile p s))) as (b & Hb & Hpb).
  exists a, (rev b). repeat split.
  - unfold trimBy. rewrite <- rev_app_distr, <- Hb, rev_involutive. exact Ha.
  - exact Hpa.
  - apply forallb_rev. exact Hpb.
Qed.

Lemma trimBy_idempotent (p : ascii -> bool) (s : list ascii) :
  trimBy p (trimBy p s) = trimBy p s.
Proof.
  destruct (trimBy_infix p s) as (a & b & Hs & Ha & Hb).
  rewrite Hs at 2. symmetry. apply trimBy_pad; assumption.
Qed.

(** What LLVM trims, Qt trims: the six characters of [StringRef::trim]
    are white space for [QChar::isSpace].  (Not the other way round: Qt
    also takes the characters 0x85 and 0xa0.) *)
Lemma trimChars_are_spaces (c : ascii) :
  inChars trimChars c = true -> QChar_isSpace c = true.
Proof.
  destruct c as [[] [] [] [] [] [] [] []]; vm_compute; intros H;
    first [reflexivity | discriminate H].
Qed.

Lemma trimChars_are_all_spaces (s : list ascii) :
  forallb (inChars trimChars) s = true -> forallb QChar_isSpace s = true.
Proof.
  rewrite !forallb_forall. intros H c Hc. apply trimChars_are_spaces.
  exact (H c Hc).
Qed.

(** ** More on the annotation cleaner *)

(** [cleanQuote] as a function of the trimmed text. *)
Lemma cleanQuote_by_trim (s : list ascii) (q : QuoteCompulsary.t) :
  cleanQuote s q = stripAnnotationQuotes s q.
Proof.
  rewrite cleanQuote_unfold. unfold stripAnnotationQuotes.
  destruct s as [|c s'].
  - destruct q; reflexivity.
  - cbn [isEmpty]. apply cleanQuote_trimmed.
Qed.

Lemma endswith_one_split (c : ascii) (s : list ascii) :
  endswith [c] s = true -> s = take (length s - 1) s ++ [c].
Proof.
  unfold endswith. cbn [rev app].
  destruct (rev s) as [|x l] eqn:E; [discriminate |].
  rewrite startswith_one. intros H. apply Ascii.eqb_eq in H. subst x.
  apply (f_equal (@rev ascii)) in E. rewrite rev_involutive in E.
  cbn [rev] in E. subst s.
  rewrite take_snoc. reflexivity.
Qed.

Lemma startswith_one_split (c : ascii) (s : list ascii) :
  startswith [c] s = true -> s = c :: drop 1 s.
Proof.
  destruct s as [|x s]; [discriminate |].
  rewrite startswith_one. intros H. apply Ascii.eqb_eq in H. subst x.
  reflexivity.
Qed.

(** X3. White space around the text does not change the answer of
    [cleanQuote(s, quote)]. *)
Theorem cleanQuote_ignores_surrounding_space
    (ws s ws' : list ascii) (q : QuoteCompulsary.t) :
  forallb (inChars trimChars) ws = true ->
  forallb (inChars trimChars) ws' = true ->
  cleanQuote (ws ++ s ++ ws') q = cleanQuote s q.
Proof.
  intros Hws Hws'. rewrite !cleanQuote_by_trim.
  unfold stripAnnotationQuotes, trim.
  rewrite (trimBy_pad _ ws s ws' Hws Hws'). reflexivity.
Qed.

Lemma cleanQuote_ignores_surrounding_space_witness :
  cleanQuote (qs "  " ++ quoted (qs "id") ++ qs " ") QuoteCompulsary.Right
  = cleanQuote (quoted (qs "id")) QuoteCompulsary.Right.
Proof.
  apply (cleanQuote_ignores_surrounding_space (qs "  ") (quoted (qs "id")) (qs " "));
    reflexivity.
Defined.

Lemma cleanQuote_refused_or_stripped (s : list ascii) (q : QuoteCompulsary.t) :
  cleanQuote s q = []
  \/ cleanQuote s q = removeTrailingQuote (removeLeadingQuote (trim s)).
Proof.
  rewrite cleanQuote_by_trim. unfold stripAnnotationQuotes.
  destruct ((negb (startswith [dquote] (trim s)) && leftMandatory q)
            || (negb (endswith [dquote] (trim s)) && rightMandatory q));
    [left | right]; reflexivity.
Qed.

Lemma cleanQuote_None (s : list ascii) :
  cleanQuote s QuoteCompulsary.None
  = removeTrailingQuote (removeLeadingQuote (trim s)).
Proof.
  rewrite cleanQuote_by_trim. unfold stripAnnotationQuotes.
  cbn [leftMandatory rightMandatory]. rewrite !andb_false_r. reflexivity.
Qed.

(** X4. The requirement decides only whether the text is refused: an
    answer of [cleanQuote] is the empty string or the answer under
    [None]. *)
Theorem cleanQuote_requirement_only_refuses (s : list ascii) (q : QuoteCompulsary.t) :
  cleanQuote s q = [] \/ cleanQuote s q = cleanQuote s QuoteCompulsary.None.
Proof.
  rewrite cleanQuote_None. apply cleanQuote_refused_or_stripped.
Qed.

Lemma removeLeadingQuote_piece (t : list ascii) :
  exists a, t = a ++ removeLeadingQuote t.
Proof.
  unfold removeLeadingQuote.
  destruct (startswith [dquote] t) eqn:H.
  - exists [dquote]. exact (startswith_one_split dquote t H).
  - exists []. reflexivity.
Qed.

Lemma removeTrailingQuote_piece (t : list ascii) :
  exists b, t = removeTrailingQuote t ++ b.
Proof.
  unfold removeTrailingQuote.
  destruct (endswith [dquote] t) eqn:H.
  - exists [dquote]. exact (endswith_one_split dquote t H).
  - exists []. rewrite app_nil_r. reflexivity.
Qed.

(** X5. The answer of [cleanQuote] is a piece of its input: nothing is
    added, nothing inside is changed. *)
Theorem cleanQuote_answer_is_piece_of_input (s : list ascii) (q : QuoteCompulsary.t) :
  exists a b, s = a ++ cleanQuote s q ++ b.
Proof.
  destruct (cleanQuote_refused_or_stripped s q) as [-> | ->].
  - exists s, []. rewrite app_nil_r. reflexivity.
  - destruct (trimBy_infix (inChars trimChars) s) as (a & b & Hs & _ & _).
    fold (trim s) in Hs.
    destruct (removeLeadingQuote_piece (trim s)) as (a' & Ha').
    destruct (removeTrailingQuote_piece (removeLeadingQuote (trim s))) as (b' & Hb').
    exists (a ++ a'), (b' ++ b).
    rewrite Hs at 1. rewrite Ha' at 1. rewrite Hb' at 1.
    rewrite <- !app_assoc. reflexivity.
Qed.

(** X6. With both quotes mandatory, [cleanQuote] answers with a text that
    is not empty exactly when the trimmed input is that text between
    double quotes. *)
Theorem cleanQuote_both_mandatory_inverts_quoting (s r : list ascii) :
  r <> [] ->
  cleanQuote s QuoteCompulsary.LeftAndRight = r <-> trim s = quoted r.
Proof.
  intros Hr. rewrite cleanQuote_by_trim. unfold stripAnnotationQuotes.
  cbn [leftMandatory rightMandatory]. rewrite !andb_true_r.
  split.
  - destruct (startswith [dquote] (trim s)) eqn:Hfront; [| cbn; congruence].
    destruct (endswith [dquote] (trim s)) eqn:Hback; [| cbn; congruence].
    cbn [negb orb]. intros Hres.
    pose proof (startswith_one_split dquote (trim s) Hfront) as Ht.
    unfold removeLeadingQuote in Hres. rewrite Hfront in Hres.
    destruct (drop 1 (trim s)) as [|c tl] eqn:Htl.
    + (* the trimmed text is a single quote *)
      unfold removeTrailingQuote in Hres. cbn in Hres. congruence.
    + rewrite Ht in Hback.
      rewrite (endswith_cons dquote dquote (c :: tl)) in Hback by discriminate.
      unfold removeTrailingQuote in Hres. rewrite Hback in Hres.
      pose proof (endswith_one_split dquote (c :: tl) Hback) as Hsplit.
      rewrite Hres in Hsplit. rewrite Ht, Hsplit. reflexivity.
  - intros ->. unfold quoted.
    rewrite startswith_dquote.
    change (dquote :: r ++ [dquote]) with ((dquote :: r) ++ [dquote]) at 1.
    rewrite endswith_snoc. cbn [negb orb].
    unfold removeLeadingQuote. rewrite startswith_dquote.
    change (drop 1 (dquote :: r ++ [dquote])) with (r ++ [dquote]).
    unfold removeTrailingQuote. rewrite endswith_snoc, take_snoc. reflexivity.
Qed.

Lemma cleanQuote_both_mandatory_inverts_quoting_witness :
  qs "hello" <> []
  /\ (cleanQuote (qs " " ++ quoted (qs "hello") ++ qs " ") QuoteCompulsary.LeftAndRight
      = qs "hello"
      <-> trim (qs " " ++ quoted (qs "hello") ++ qs " ") = quoted (qs "hello")).
Proof.
  assert (H : qs "hello" <> []) by discriminate.
  split; [exact H |].
  apply (cleanQuote_both_mandatory_inverts_quoting
           (qs " " ++ quoted (qs "hello") ++ qs " ") (qs "hello") H).
Defined.

(** ** More on the token cleaner *)

Lemma indexOf_from_absent (c : ascii) (s : list ascii) (i : Z) :
  ~ In c s -> indexOf_from c s i = -1.
Proof.
  revert i. induction s as [|a s IH]; intros i H; simpl; [reflexivity |].
  destruct (Ascii.eqb_spec a c) as [-> | _].
  - destruct H. left. reflexivity.
  - apply IH. intros Hin. apply H. right. exact Hin.
Qed.

Lemma trimBy_In (p : ascii -> bool) (c : ascii) (s : list ascii) :
  In c (trimBy p s) -> In c s.
Proof.
  destruct (trimBy_infix p s) as (a & b & Hs & _ & _).
  intros H. rewrite Hs. rewrite !in_app_iff. right. left. exact H.
Qed.

(** The test for the empty token changes nothing: the rest of the
    function gives the empty string on it as well. *)
Lemma cleanQuoteToken_unguarded (token : list ascii) :
  cleanQuoteToken token =
    let string := trimmed (fromStdString token) in
    let index := indexOf dquote string in
    if index <=? 0 then cleanQuote token QuoteCompulsary.LeftAndRight
    else
      let result :=
        if bool_decide (at_ string (index - 1) = Some "R"%char)
        then match_ rawStringLiteral string
        else match_ stringLiteral string in
      if hasMatch result then captured result "characters" else string.
Proof. destruct token; reflexivity. Qed.

(** X7. The white space that both trims take off (space, \t, \n, \v,
    \f, \r) around the token does not change the answer of
    [cleanQuote(token)]. *)
Theorem cleanQuoteToken_ignores_surrounding_space (ws token ws' : list ascii) :
  forallb (inChars trimChars) ws = true ->
  forallb (inChars trimChars) ws' = true ->
  cleanQuoteToken (ws ++ token ++ ws') = cleanQuoteToken token.
Proof.
  intros Hws Hws'.
  rewrite !cleanQuoteToken_unguarded. unfold fromStdString, trimmed. cbv zeta.
  rewrite (trimBy_pad QChar_isSpace ws token ws'
             (trimChars_are_all_spaces ws Hws) (trimChars_are_all_spaces ws' Hws')).
  assert (Hin : cleanQuote (ws ++ token ++ ws') QuoteCompulsary.LeftAndRight
                = cleanQuote token QuoteCompulsary.LeftAndRight).
  { rewrite !cleanQuote_by_trim. unfold stripAnnotationQuotes, trim.
    rewrite (trimBy_pad (inChars trimChars) ws token ws' Hws Hws').
    reflexivity. }
  rewrite Hin. reflexivity.
Qed.

Lemma cleanQuoteToken_ignores_surrounding_space_witness :
  cleanQuoteToken (qs " " ++ (qs "u8" ++ quoted (qs "abc")) ++ qs "  ")
  = cleanQuoteToken (qs "u8" ++ quoted (qs "abc")).
Proof.
  apply (cleanQuoteToken_ignores_surrounding_space
           (qs " ") (qs "u8" ++ quoted (qs "abc")) (qs "  "));
    reflexivity.
Defined.

(** A no-break space before a literal is white space for
    [QString::trimmed] and not for [StringRef::trim]: the first quote is
    found at the start of the trimmed token, and the strict overload, which
    trims for itself, then misses the leading quote. *)
Example cleanQuoteToken_after_no_break_space :
  cleanQuoteToken (ascii_of_nat 160 :: quoted (qs "abc")) = []
  /\ cleanQuoteToken (quoted (qs "abc")) = qs "abc".
Proof. split; vm_compute; reflexivity. Qed.

(** X8. A token without any double quote gives the empty string. *)
Theorem cleanQuoteToken_without_quote_is_empty (token : list ascii) :
  ~ In dquote token -> cleanQuoteToken token = [].
Proof.
  intros Hq. rewrite cleanQuoteToken_unguarded. cbv zeta.
  unfold fromStdString, indexOf.
  rewrite indexOf_from_absent.
  - cbn [Z.leb Z.compare]. rewrite cleanQuote_by_trim.
    unfold stripAnnotationQuotes.
    destruct (startswith [dquote] (trim token)) eqn:Hfront; [| reflexivity].
    destruct Hq. apply (trimBy_In (inChars trimChars)). fold (trim token).
    rewrite (startswith_one_split dquote (trim token) Hfront).
    left. reflexivity.
  - intros Hin. apply Hq. exact (trimBy_In _ _ _ Hin).
Qed.

Lemma cleanQuoteToken_without_quote_is_empty_witness :
  ~ In dquote (qs "QT_TR_NOOP(x)") /\ cleanQuoteToken (qs "QT_TR_NOOP(x)") = [].
Proof.
  assert (H : ~ In dquote (qs "QT_TR_NOOP(x)")).
  { intros Hin. repeat (destruct Hin as [Hin | Hin]; [discriminate Hin |]).
    exact Hin. }
  split; [exact H |].
  apply (cleanQuoteToken_without_quote_is_empty (qs "QT_TR_NOOP(x)") H).
Defined.

(** ** More on validity *)



(** * The index model of the help system *)

Lemma toInt_small (z : Z) : - 2 ^ 31 <= z < 2 ^ 31 -> toInt z = z.
Proof. intros H. unfold toInt. rewrite Z.mod_small; lia. Qed.

Lemma findFirst_snoc {A : Type} (p : A -> bool) (l : list A) (x : A) :
  findFirst p (l ++ [x])
  = match findFirst p l with
    | Some i => Some i
    | None => if p x then Some (length l) else None
    end.
Proof.
  induction l as [|a l IH]; simpl.
  - destruct (p x); reflexivity.
  - destruct (p a); [reflexivity |]. rewrite IH.
    destruct (findFirst p l); [reflexivity |]. destruct (p x); reflexivity.
Qed.

Lemma findLast_snoc {A : Type} (p : A -> bool) (l : list A) (x : A) :
  findLast p (l ++ [x]) = if p x then Some (length l) else findLast p l.
Proof.
  induction l as [|a l IH]; simpl.
  - destruct (p x); reflexivity.
  - rewrite IH. destruct (p x); reflexivity.
Qed.

Lemma findFirst_Some {A : Type} (p : A -> bool) (l : list A) (i : nat) :
  findFirst p l = Some i -> exists x, l !! i = Some x /\ p x = true.
Proof.
  revert i. induction l as [|a l IH]; simpl; intros i; [discriminate |].
  destruct (p a) eqn:Ha.
  - intros [= <-]. exists a. split; [reflexivity | exact Ha].
  - destruct (findFirst p l) as [j|]; [| discriminate].
    intros [= <-]. exact (IH j eq_refl).
Qed.

Lemma findLast_Some {A : Type} (p : A -> bool) (l : list A) (i : nat) :
  findLast p l = Some i -> exists x, l !! i = Some x /\ p x = true.
Proof.
  revert i. induction l as [|a l IH]; simpl; intros i; [discriminate |].
  destruct (findLast p l) as [j|].
  - intros [= <-]. exact (IH j eq_refl).
  - destruct (p a) eqn:Ha; [| discriminate].
    intros [= <-]. exists a. split; [reflexivity | exact Ha].
Qed.

Lemma findFirst_None {A : Type} (p : A -> bool) (l : list A) :
  findFirst p l = None <-> forall x, In x l -> p x = false.
Proof.
  induction l as [|a l IH]; simpl.
  - split; [intros _ x [] | reflexivity].
  - destruct (p a) eqn:Ha.
    + split; [discriminate |]. intros H.
      rewrite (H a) in Ha by (left; reflexivity). discriminate.
    + destruct (findFirst p l) as [j|].
      * split; [discriminate |]. intros H.
        assert (Hn : @None nat = None) by reflexivity.
        destruct IH as [_ IH]. discriminate IH.
        intros x Hx. apply H. right. exact Hx.
      * split; [| reflexivity]. intros _ x [<- | Hx]; [exact Ha |].
        destruct IH as [IH _]. exact (IH eq_refl x Hx).
Qed.

Lemma findLast_None {A : Type} (p : A -> bool) (l : list A) :
  findLast p l = None <-> forall x, In x l -> p x = false.
Proof.
  induction l as [|a l IH]; simpl.
  - split; [intros _ x [] | reflexivity].
  - destruct (findLast p l) as [j|].
    + split; [discriminate |]. intros H.
      destruct IH as [_ IH]. discriminate IH.
      intros x Hx. apply H. right. exact Hx.
    + destruct (p a) eqn:Ha.
      * split; [discriminate |]. intros H.
        rewrite (H a) in Ha by (left; reflexivity). discriminate.
      * split; [| reflexivity]. intros _ x [<- | Hx]; [exact Ha |].
        destruct IH as [IH _]. exact (IH eq_refl x Hx).
Qed.

(** Where nothing satisfies [q], nothing satisfies a stronger [p]. *)
Lemma findFirst_None_weaken {A : Type} (p q : A -> bool) (l : list A) :
  (forall x, p x = true -> q x = true) ->
  findFirst q l = None -> findFirst p l = None /\ findLast p l = None.
Proof.
  intros Himp Hq.
  assert (H : forall x, In x l -> p x = false).
  { intros x Hx. destruct (p x) eqn:Hp; [| reflexivity].
    apply Himp in Hp. rewrite findFirst_None in Hq.
    rewrite (Hq x Hx) in Hp. discriminate. }
  split; [apply findFirst_None | apply findLast_None]; exact H.
Qed.

Lemma rowOf_Some_not_unset (i : nat) : (Z.of_nat i =? -1) = false.
Proof. apply Z.eqb_neq. lia. Qed.

Lemma rowOf_Some_set (i : nat) : (Z.of_nat i >? -1) = true.
Proof. rewrite Z.gtb_ltb. apply Z.ltb_lt. lia. Qed.

Section IndexModelFacts.

Variable toCaseFolded : ascii -> ascii.
Variable containsWildcard : QString -> QString -> bool.

Lemma startsWithCI_refl (s : QString) : startsWithCI toCaseFolded s s = true.
Proof.
  induction s as [|c s IH]; simpl; [reflexivity |].
  rewrite Ascii.eqb_refl, IH. reflexivity.
Qed.

Lemma exact_sameButCase (f k : QString) :
  bool_decide (k = f) = true -> sameButCase toCaseFolded f k = true.
Proof.
  intros H. apply bool_decide_eq_true_1 in H. subst k.
  unfold sameButCase. rewrite startsWithCI_refl, Nat.eqb_refl. reflexivity.
Qed.

Lemma sameButCase_starts (f k : QString) :
  sameButCase toCaseFolded f k = true -> startsWithCI toCaseFolded k f = true.
Proof. unfold sameButCase. intros H. apply andb_true_iff in H. apply H. Qed.

Lemma filterStep_lst (keep : QString -> bool) (f : QString) (st : FilterState)
    (k : QString) :
  lst (filterStep toCaseFolded keep f st k)
  = lst st ++ (if keep k then [k] else []).
Proof.
  unfold filterStep. destruct (keep k); [| symmetry; apply app_nil_r].
  destruct ((perfectMatch st =? -1) && startsWithCI toCaseFolded k f);
    [reflexivity |].
  destruct ((perfectMatch st >? -1) && bool_decide (k = f)); reflexivity.
Qed.

Lemma filterLoop_lst (keep : QString -> bool) (f : QString) (l : list QString) :
  forall st : FilterState,
    lst (fold_left (filterStep toCaseFolded keep f) l st)
    = lst st ++ List.filter keep l.
Proof.
  induction l as [|k l IH]; intros st; simpl.
  - symmetry. apply app_nil_r.
  - rewrite IH, filterStep_lst.
    destruct (keep k); simpl; rewrite <- app_assoc; reflexivity.
Qed.

(** The match variables after a keyword, in terms of the list. *)
Lemma filterStep_matches (keep : QString -> bool) (f : QString)
    (st : FilterState) (k : QString) :
  Z.of_nat (length (lst st)) < 2 ^ 31 ->
  goodMatch st
  = rowOf (findFirst (fun k => startsWithCI toCaseFolded k f) (lst st)) ->
  perfectMatch st
  = rowOf (match findLast (fun k => bool_decide (k = f)) (lst st) with
           | Some i => Some i
           | None => findFirst (sameButCase toCaseFolded f) (lst st)
           end) ->
  let st' := filterStep toCaseFolded keep f st k in
  goodMatch st'
  = rowOf (findFirst (fun k => startsWithCI toCaseFolded k f) (lst st'))
  /\ perfectMatch st'
     = rowOf (match findLast (fun k => bool_decide (k = f)) (lst st') with
              | Some i => Some i
              | None => findFirst (sameButCase toCaseFolded f) (lst st')
              end).
Proof.
  intros Hlen Hg Hp. cbv zeta.
  rewrite filterStep_lst. unfold filterStep.
  destruct (keep k); [| rewrite app_nil_r; split; assumption].
  rewrite findFirst_snoc, findLast_snoc, findFirst_snoc.
  rewrite length_app. cbn [length].
  replace (Z.of_nat (length (lst st) + 1) - 1) with (Z.of_nat (length (lst st)))
    by lia.
  rewrite toInt_small by lia.
  rewrite Hg, Hp. clear Hg Hp.
  assert (Hsize : (Z.of_nat (length f) =? Z.of_nat (length k))
                  = (length f =? length k)%nat).
  { destruct (Nat.eqb_spec (length f) (length k)) as [-> | Hne].
    - apply Z.eqb_refl.
    - apply Z.eqb_neq. lia. }
  rewrite Hsize. clear Hsize.
  change (sameButCase toCaseFolded f k)
    with (startsWithCI toCaseFolded k f && (length f =? length k)%nat).
  (* what the keyword is *)
  assert (HE : bool_decide (k = f) = true ->
               startsWithCI toCaseFolded k f = true
               /\ (length f =? length k)%nat = true).
  { intros H. apply exact_sameButCase in H. apply andb_true_iff in H. exact H. }
  (* what the list holds *)
  assert (HY : findFirst (fun k0 => startsWithCI toCaseFolded k0 f) (lst st) = None ->
               findFirst (sameButCase toCaseFolded f) (lst st) = None).
  { intros H.
    apply (findFirst_None_weaken (sameButCase toCaseFolded f) _ (lst st)
             (sameButCase_starts f) H). }
  assert (HX : findFirst (sameButCase toCaseFolded f) (lst st) = None ->
               findLast (fun k0 => bool_decide (k0 = f)) (lst st) = None).
  { intros H.
    apply (findFirst_None_weaken (fun k0 => bool_decide (k0 = f)) _ (lst st)
             (exact_sameButCase f) H). }
  set (n := length (lst st)) in *.
  destruct (startsWithCI toCaseFolded k f);
    destruct (length f =? length k)%nat;
    destruct (bool_decide (k = f));
    try (destruct (HE eq_refl); discriminate);
    destruct (findFirst (fun k0 => startsWithCI toCaseFolded k0 f) (lst st));
    destruct (findFirst (sameButCase toCaseFolded f) (lst st));
    try (discriminate (HY eq_refl));
    destruct (findLast (fun k0 => bool_decide (k0 = f)) (lst st));
    try (discriminate (HX eq_refl));
    cbn [rowOf andb];
    rewrite ?rowOf_Some_not_unset, ?rowOf_Some_set;
    cbn [andb Z.eqb Z.gtb Z.compare rowOf];
    rewrite ?rowOf_Some_not_unset;
    split; reflexivity.
Qed.

End IndexModelFacts.

Section IndexModelFilter.

Variable toCaseFolded : ascii -> ascii.
Variable containsWildcard : QString -> QString -> bool.

Lemma filterLoop_matches (keep : QString -> bool) (f : QString) (l : list QString) :
  forall st : FilterState,
    Z.of_nat (length (lst st) + length l) < 2 ^ 31 ->
    goodMatch st
    = rowOf (findFirst (fun k => startsWithCI toCaseFolded k f) (lst st)) ->
    perfectMatch st
    = rowOf (match findLast (fun k => bool_decide (k = f)) (lst st) with
             | Some i => Some i
             | None => findFirst (sameButCase toCaseFolded f) (lst st)
             end) ->
    let st' := fold_left (filterStep toCaseFolded keep f) l st in
    goodMatch st'
    = rowOf (findFirst (fun k => startsWithCI toCaseFolded k f) (lst st'))
    /\ perfectMatch st'
       = rowOf (match findLast (fun k => bool_decide (k = f)) (lst st') with
                | Some i => Some i
                | None => findFirst (sameButCase toCaseFolded f) (lst st')
                end).
Proof.
  induction l as [|k l IH]; intros st Hlen Hg Hp; cbn [fold_left].
  - split; assumption.
  - cbn [length] in Hlen.
    destruct (filterStep_matches toCaseFolded keep f st k) as [Hg' Hp'];
      [lia | exact Hg | exact Hp |].
    apply IH; [| exact Hg' | exact Hp'].
    rewrite filterStep_lst, length_app.
    destruct (keep k); cbn [length]; lia.
Qed.

(** What [filter] does for a filter that is not empty. *)
Lemma filter_spec (m : QHelpIndexModel) (f w : QString) :
  f <> [] ->
  Z.of_nat (length (indices m)) < 2 ^ 31 ->
  filter_ toCaseFolded containsWildcard m f w
  = let kept := List.filter (keeps toCaseFolded containsWildcard f w) (indices m) in
    ({| indices := indices m; stringList := kept |},
     match kept with
     | [] => None
     | _ :: _ => Some (Z.of_nat (bestMatch toCaseFolded f kept))
     end).
Proof.
  intros Hf Hlen. unfold filter_.
  apply isEmpty_false in Hf. rewrite Hf. cbv zeta.
  set (keep := keeps toCaseFolded containsWildcard f w).
  set (init := {| lst := []; goodMatch := -1; perfectMatch := -1 |}).
  destruct (filterLoop_matches keep f (indices m) init) as [Hg Hp];
    [exact Hlen | reflexivity | reflexivity |].
  pose proof (filterLoop_lst toCaseFolded keep f (indices m) init) as Hl.
  subst init. cbn [lst app] in Hl. cbv zeta in Hg, Hp.
  rewrite Hg, Hp, Hl. clear Hg Hp Hl.
  set (kept := List.filter keep (indices m)).
  f_equal. unfold index, bestMatch. cbn [stringList].
  destruct (findLast (fun k => bool_decide (k = f)) kept) as [x|] eqn:Ex.
  { destruct (findLast_Some _ _ _ Ex) as (k & Hk & _).
    apply lookup_lt_Some in Hk.
    destruct kept; [simpl in Hk; lia |].
    cbn [rowOf]. rewrite rowOf_Some_not_unset.
    destruct (Z.leb_spec 0 (Z.of_nat x)); [| lia].
    destruct (Z.ltb_spec (Z.of_nat x) (Z.of_nat (length (l :: kept)))); [| lia].
    reflexivity. }
  destruct (findFirst (sameButCase toCaseFolded f) kept) as [y|] eqn:Ey.
  { destruct (findFirst_Some _ _ _ Ey) as (k & Hk & _).
    apply lookup_lt_Some in Hk.
    destruct kept; [simpl in Hk; lia |].
    cbn [rowOf]. rewrite rowOf_Some_not_unset.
    destruct (Z.leb_spec 0 (Z.of_nat y)); [| lia].
    destruct (Z.ltb_spec (Z.of_nat y) (Z.of_nat (length (l :: kept)))); [| lia].
    reflexivity. }
  cbn [rowOf]. change (-1 =? -1) with true. cbv iota.
  destruct (findFirst (fun k => startsWithCI toCaseFolded k f) kept) as [g|] eqn:Eg.
  { destruct (findFirst_Some _ _ _ Eg) as (k & Hk & _).
    apply lookup_lt_Some in Hk.
    destruct kept; [simpl in Hk; lia |].
    cbn [rowOf].
    rewrite Z.max_r by lia.
    destruct (Z.leb_spec 0 (Z.of_nat g)); [| lia].
    destruct (Z.ltb_spec (Z.of_nat g) (Z.of_nat (length (l :: kept)))); [| lia].
    reflexivity. }
  cbn [rowOf]. destruct kept as [|k kept']; reflexivity.
Qed.

(** X10. For a filter that is not empty and fewer than 2^31 keywords,
    [filter] leaves in the model the keywords that pass the test of its
    loop, in their order, and returns the index of the best match among
    them: the last keyword that is the filter itself; failing that, the
    first that is the filter but for the case; failing that, the first
    that starts with the filter; failing that, the first row.  With no
    keyword left, the index is invalid. *)
Theorem filter_returns_best_match (m : QHelpIndexModel) (f w : QString) :
  f <> [] ->
  Z.of_nat (length (indices m)) < 2 ^ 31 ->
  filter_ toCaseFolded containsWildcard m f w
  = let kept := List.filter (keeps toCaseFolded containsWildcard f w) (indices m) in
    ({| indices := indices m; stringList := kept |},
     match kept with
     | [] => None
     | _ :: _ => Some (Z.of_nat (bestMatch toCaseFolded f kept))
     end).
Proof. exact (filter_spec m f w). Qed.

(** X11. Whatever the number of keywords, [filter] does not touch
    [d->indices], and the string list afterwards holds all the keywords
    for the empty filter and the keywords that pass the test of the loop,
    in their order, otherwise. *)
Theorem filter_keeps_matching_keywords (m : QHelpIndexModel) (f w : QString) :
  indices (fst (filter_ toCaseFolded containsWildcard m f w)) = indices m
  /\ stringList (fst (filter_ toCaseFolded containsWildcard m f w))
     = if isEmpty f then indices m
       else List.filter (keeps toCaseFolded containsWildcard f w) (indices m).
Proof.
  unfold filter_. destruct (isEmpty f); cbn [fst indices stringList].
  - split; reflexivity.
  - split; [reflexivity |]. rewrite filterLoop_lst. reflexivity.
Qed.

(** X12. For a filter that is not empty, the index that [filter] returns
    is valid exactly when some keyword passes the test of the loop. *)
Theorem filter_index_valid_iff_keyword_kept (m : QHelpIndexModel) (f w : QString) :
  f <> [] ->
  Z.of_nat (length (indices m)) < 2 ^ 31 ->
  is_Some (snd (filter_ toCaseFolded containsWildcard m f w))
  <-> exists k, In k (indices m) /\ keeps toCaseFolded containsWildcard f w k = true.
Proof.
  intros Hf Hlen. rewrite (filter_spec m f w Hf Hlen). cbv zeta. cbn [snd].
  destruct (List.filter (keeps toCaseFolded containsWildcard f w) (indices m))
    as [|k kept] eqn:E.
  - split.
    + intros [x Hx]. discriminate.
    + intros (k & Hin & Hk).
      assert (H : In k (List.filter (keeps toCaseFolded containsWildcard f w)
                          (indices m))).
      { apply filter_In. split; assumption. }
      rewrite E in H. destruct H.
  - split; [| intros _; eexists; reflexivity].
    intros _. exists k. apply filter_In. rewrite E. left. reflexivity.
Qed.

Lemma containsCI_refl (s : QString) : containsCI toCaseFolded s s = true.
Proof. destruct s; simpl; [reflexivity |]. rewrite Ascii.eqb_refl, startsWithCI_refl. reflexivity. Qed.

(** X13. Without wildcard, when the filter itself is among the keywords,
    the index returned is valid and its row holds the filter. *)
Theorem filter_prefers_the_filter_itself (m : QHelpIndexModel) (f : QString) :
  f <> [] ->
  Z.of_nat (length (indices m)) < 2 ^ 31 ->
  In f (indices m) ->
  exists row : nat,
    snd (filter_ toCaseFolded containsWildcard m f []) = Some (Z.of_nat row)
    /\ stringList (fst (filter_ toCaseFolded containsWildcard m f [])) !! row
       = Some f.
Proof.
  intros Hf Hlen Hin. rewrite (filter_spec m f [] Hf Hlen). cbv zeta.
  cbn [fst snd stringList].
  set (kept := List.filter (keeps toCaseFolded containsWildcard f []) (indices m)).
  assert (Hkept : In f kept).
  { apply filter_In. split; [exact Hin |].
    unfold keeps. cbn [isEmpty negb]. apply containsCI_refl. }
  unfold bestMatch.
  destruct (findLast (fun k => bool_decide (k = f)) kept) as [x|] eqn:Ex.
  - destruct (findLast_Some _ _ _ Ex) as (k & Hk & Heq).
    apply bool_decide_eq_true_1 in Heq. subst k.
    exists x. destruct kept; [destruct Hkept |].
    split; [reflexivity | exact Hk].
  - rewrite findLast_None in Ex. specialize (Ex f Hkept).
    rewrite bool_decide_eq_true_2 in Ex by reflexivity. discriminate.
Qed.

(** X14. When some keyword that passes the test of the loop starts with
    the filter (case ignored), the keyword at the index returned starts
    with the filter. *)
Theorem filter_prefers_keyword_with_prefix (m : QHelpIndexModel) (f w k : QString) :
  f <> [] ->
  Z.of_nat (length (indices m)) < 2 ^ 31 ->
  In k (indices m) ->
  keeps toCaseFolded containsWildcard f w k = true ->
  startsWithCI toCaseFolded k f = true ->
  exists (row : nat) (k' : QString),
    snd (filter_ toCaseFolded containsWildcard m f w) = Some (Z.of_nat row)
    /\ stringList (fst (filter_ toCaseFolded containsWildcard m f w)) !! row
       = Some k'
    /\ startsWithCI toCaseFolded k' f = true.
Proof.
  intros Hf Hlen Hin Hkeep Hstarts. rewrite (filter_spec m f w Hf Hlen). cbv zeta.
  cbn [fst snd stringList].
  set (kept := List.filter (keeps toCaseFolded containsWildcard f w) (indices m)).
  assert (Hkept : In k kept).
  { apply filter_In. split; assumption. }
  destruct kept as [|k0 kept0] eqn:Ekept; [destruct Hkept |].
  rewrite <- Ekept in *. clear Ekept k0 kept0.
  unfold bestMatch.
  destruct (findLast (fun k0 => bool_decide (k0 = f)) kept) as [x|] eqn:Ex.
  { destruct (findLast_Some _ _ _ Ex) as (k' & Hk' & Heq).
    exists x, k'. repeat split; [exact Hk' |].
    apply sameButCase_starts. apply exact_sameButCase. exact Heq. }
  destruct (findFirst (sameButCase toCaseFolded f) kept) as [y|] eqn:Ey.
  { destruct (findFirst_Some _ _ _ Ey) as (k' & Hk' & Hs).
    exists y, k'. repeat split; [exact Hk' |].
    apply sameButCase_starts. exact Hs. }
  destruct (findFirst (fun k0 => startsWithCI toCaseFolded k0 f) kept) as [g|] eqn:Eg.
  { destruct (findFirst_Some _ _ _ Eg) as (k' & Hk' & Hs).
    exists g, k'. repeat split; [exact Hk' | exact Hs]. }
  rewrite findFirst_None in Eg. rewrite (Eg k Hkept) in Hstarts. discriminate.
Qed.

(** X15. Filtering does not lose keywords: after any call of [filter],
    a call with the empty filter puts all the keywords back and returns
    the invalid index. *)
Theorem filter_empty_restores_all (m : QHelpIndexModel) (f w w' : QString) :
  filter_ toCaseFolded containsWildcard
    (fst (filter_ toCaseFolded containsWildcard m f w)) [] w'
  = ({| indices := indices m; stringList := indices m |}, None).
Proof.
  unfold filter_ at 1. cbn [isEmpty].
  assert (H : indices (fst (filter_ toCaseFolded containsWildcard m f w))
              = indices m).
  { unfold filter_. destruct (isEmpty f); reflexivity. }
  rewrite H. reflexivity.
Qed.

End IndexModelFilter.

Lemma filter_returns_best_match_witness :
  qs "QString" <> []
  /\ Z.of_nat (length (indices exampleModel)) < 2 ^ 31
  /\ filter_ asciiFold noWildcard exampleModel (qs "QString") []
     = ({| indices := indices exampleModel;
           stringList := [qs "QStringList"; qs "qstring"; qs "QString";
                          qs "QStringView"; qs "QString"] |},
        Some 4).
Proof.
  assert (H1 : qs "QString" <> []) by discriminate.
  assert (H2 : Z.of_nat (length (indices exampleModel)) < 2 ^ 31) by reflexivity.
  split; [exact H1 |]. split; [exact H2 |].
  rewrite (filter_returns_best_match asciiFold noWildcard exampleModel
             (qs "QString") [] H1 H2).
  reflexivity.
Defined.

Lemma filter_index_valid_iff_keyword_kept_witness :
  is_Some (snd (filter_ asciiFold noWildcard exampleModel (qs "view") [])).
Proof.
  apply (filter_index_valid_iff_keyword_kept asciiFold noWildcard exampleModel
           (qs "view") []).
  - discriminate.
  - reflexivity.
  - exists (qs "QStringView"). split.
    + simpl. tauto.
    + reflexivity.
Defined.

Lemma filter_prefers_the_filter_itself_witness :
  exists row : nat,
    snd (filter_ asciiFold noWildcard exampleModel (qs "qstring") [])
    = Some (Z.of_nat row)
    /\ stringList (fst (filter_ asciiFold noWildcard exampleModel (qs "qstring") []))
         !! row
       = Some (qs "qstring").
Proof.
  apply (filter_prefers_the_filter_itself asciiFold noWildcard exampleModel
           (qs "qstring")).
  - discriminate.
  - reflexivity.
  - simpl. tauto.
Defined.

Lemma filter_prefers_keyword_with_prefix_witness :
  exists (row : nat) (k' : QString),
    snd (filter_ asciiFold noWildcard exampleModel (qs "str") [])
    = Some (Z.of_nat row)
    /\ stringList (fst (filter_ asciiFold noWildcard exampleModel (qs "str") []))
         !! row
       = Some k'
    /\ startsWithCI asciiFold k' (qs "str") = true.
Proof.
  apply (filter_prefers_keyword_with_prefix asciiFold noWildcard exampleModel
           (qs "str") [] (qs "string")).
  - discriminate.
  - reflexivity.
  - simpl. tauto.
  - reflexivity.
  - reflexivity.
Defined.

(** * Validity of the records in the stores *)

Lemma sameValidityFields_refl (r : TranslationRelatedStore) :
  sameValidityFields r r.
Proof. repeat split. Qed.

Lemma sameValidityFields_trans (r1 r2 r3 : TranslationRelatedStore) :
  sameValidityFields r1 r2 -> sameValidityFields r2 r3 -> sameValidityFields r1 r3.
Proof.
  intros (A1 & A2 & A3 & A4 & A5 & A6 & A7 & A8)
         (B1 & B2 & B3 & B4 & B5 & B6 & B7 & B8).
  repeat split; congruence.
Qed.

Lemma sameValidityFields_sym (r1 r2 : TranslationRelatedStore) :
  sameValidityFields r1 r2 -> sameValidityFields r2 r1.
Proof.
  intros (A1 & A2 & A3 & A4 & A5 & A6 & A7 & A8). repeat split; congruence.
Qed.

(** [callLocation] leaves the fields that [isValid] reads. *)
Lemma callLocation_sameValidityFields {FileEntry : Type}
    (sm : SourceManager FileEntry) (r : TranslationRelatedStore) :
  sameValidityFields r (store (callLocation sm r)).
Proof.
  unfold callLocation. destruct (isInvalid (sourceLocation r)); repeat split.
Qed.

Lemma partitionOf_setPartition (p : Partition) (l : TranslationStores) (s : Stores) :
  partitionOf p (setPartition p l s) = l.
Proof. destruct p; reflexivity. Qed.

Lemma partitionOf_setPartition_other (p q : Partition) (l : TranslationStores)
    (s : Stores) :
  p <> q -> partitionOf p (setPartition q l s) = partitionOf p s.
Proof. destruct p, q; intros H; try reflexivity; destruct H; reflexivity. Qed.

Lemma Partition_eq_or_not (p q : Partition) : p = q \/ p <> q.
Proof. destruct p, q; first [left; reflexivity | right; discriminate]. Qed.

(** An event keeps every record where it is, with the fields that
    [isValid] reads as they were. *)
Lemma perform_keeps_record {FileEntry : Type} (e : Event FileEntry) (s : Stores)
    (p : Partition) (i : nat) (r : TranslationRelatedStore) :
  partitionOf p s !! i = Some r ->
  exists r',
    partitionOf p (perform s e) !! i = Some r' /\ sameValidityFields r r'.
Proof.
  intros Hr.
  destruct e as [q r0 | q j sm | q j]; cbn [perform].
  - (* a record is appended *)
    exists r. split; [| apply sameValidityFields_refl].
    destruct (Partition_eq_or_not p q) as [<- | Hne].
    + rewrite partitionOf_setPartition. apply lookup_app_l_Some. exact Hr.
    + rewrite partitionOf_setPartition_other by exact Hne. exact Hr.
  - (* callLocation on a record *)
    destruct (partitionOf q s !! j) as [rj|] eqn:Hj.
    + destruct (Partition_eq_or_not p q) as [<- | Hne].
      * rewrite partitionOf_setPartition.
        destruct (decide (i = j)) as [<- | Hij].
        -- exists (store (callLocation sm rj)).
           rewrite list_lookup_insert_eq by (apply lookup_lt_Some in Hr; exact Hr).
           split; [reflexivity |].
           assert (rj = r) by congruence. subst rj.
           apply callLocation_sameValidityFields.
        -- exists r. rewrite list_lookup_insert_ne by congruence.
           split; [exact Hr | apply sameValidityFields_refl].
      * exists r. rewrite partitionOf_setPartition_other by exact Hne.
        split; [exact Hr | apply sameValidityFields_refl].
    + exists r. split; [exact Hr | apply sameValidityFields_refl].
  - (* isValid on a record *)
    exists r. split; [exact Hr | apply sameValidityFields_refl].
Qed.

Lemma runHistory_keeps_record {FileEntry : Type} (history : list (Event FileEntry)) :
  forall (s : Stores) (p : Partition) (i : nat) (r : TranslationRelatedStore),
    partitionOf p s !! i = Some r ->
    exists r',
      partitionOf p (runHistory history s) !! i = Some r'
      /\ sameValidityFields r r'.
Proof.
  induction history as [|e history IH]; intros s p i r Hr.
  - exists r. split; [exact Hr | apply sameValidityFields_refl].
  - destruct (perform_keeps_record e s p i r Hr) as (r1 & Hr1 & Hs1).
    destruct (IH (perform s e) p i r1 Hr1) as (r2 & Hr2 & Hs2).
    exists r2. split; [exact Hr2 |].
    exact (sameValidityFields_trans r r1 r2 Hs1 Hs2).
Qed.

(** C5. With the alias table fixed, two records with the same values in
    the fields that [isValid] reads get the same answer wherever and
    whenever they are asked: each may sit in any partition of any stores,
    at any position among any other records, and any history of events
    (records appended to any partition, [callLocation] and [isValid]
    called on any record, these two included) may have run in between.
    Both records are still where they were, and their answers agree. *)
Theorem isValid_independent_of_stores_and_history {FileEntry : Type}
    (trFunctionByName : QString -> option TrFunction)
    (s1 s2 : Stores) (history1 history2 : list (Event FileEntry))
    (p1 p2 : Partition) (i1 i2 : nat) (r1 r2 : TranslationRelatedStore) :
  partitionOf p1 s1 !! i1 = Some r1 ->
  partitionOf p2 s2 !! i2 = Some r2 ->
  sameValidityFields r1 r2 ->
  exists r1' r2',
    partitionOf p1 (runHistory history1 s1) !! i1 = Some r1'
    /\ partitionOf p2 (runHistory history2 s2) !! i2 = Some r2'
    /\ isValid trFunctionByName r1' = isValid trFunctionByName r1
    /\ isValid trFunctionByName r2' = isValid trFunctionByName r2
    /\ isValid trFunctionByName r1' = isValid trFunctionByName r2'.
Proof.
  intros H1 H2 Hsame.
  destruct (runHistory_keeps_record history1 s1 p1 i1 r1 H1) as (r1' & Hr1 & Hs1).
  destruct (runHistory_keeps_record history2 s2 p2 i2 r2 H2) as (r2' & Hr2 & Hs2).
  exists r1', r2'.
  split; [exact Hr1 |]. split; [exact Hr2 |].
  split; [symmetry; exact (isValid_determined_by_fields _ _ _ Hs1) |].
  split; [symmetry; exact (isValid_determined_by_fields _ _ _ Hs2) |].
  apply isValid_determined_by_fields.
  apply (sameValidityFields_trans r1' r1 r2').
  - apply sameValidityFields_sym. exact Hs1.
  - exact (sameValidityFields_trans r1 r2 r2' Hsame Hs2).
Qed.

Lemma isValid_independent_of_stores_and_history_witness :
  partitionOf Partition_AST exampleStoresA !! 0%nat
  = Some (exampleStore "tr" "tr(Hello)")
  /\ partitionOf Partition_Preprocessor exampleStoresB !! 1%nat
     = Some (exampleStore "tr" "tr ( Hello )")
  /\ sameValidityFields (exampleStore "tr" "tr(Hello)")
       (exampleStore "tr" "tr ( Hello )")
  /\ exists r1' r2',
       partitionOf Partition_AST (runHistory exampleHistoryA exampleStoresA) !! 0%nat
       = Some r1'
       /\ partitionOf Partition_Preprocessor
            (runHistory exampleHistoryB exampleStoresB) !! 1%nat
          = Some r2'
       /\ isValid exampleAliases r1' = true
       /\ isValid exampleAliases r2' = true.
Proof.
  assert (H1 : partitionOf Partition_AST exampleStoresA !! 0%nat
               = Some (exampleStore "tr" "tr(Hello)")) by reflexivity.
  assert (H2 : partitionOf Partition_Preprocessor exampleStoresB !! 1%nat
               = Some (exampleStore "tr" "tr ( Hello )")) by reflexivity.
  assert (H3 : sameValidityFields (exampleStore "tr" "tr(Hello)")
                 (exampleStore "tr" "tr ( Hello )"))
    by (repeat split; reflexivity).
  split; [exact H1 |]. split; [exact H2 |]. split; [exact H3 |].
  destruct (isValid_independent_of_stores_and_history exampleAliases
              exampleStoresA exampleStoresB exampleHistoryA exampleHistoryB
              Partition_AST Partition_Preprocessor 0 1 _ _ H1 H2 H3)
    as (r1' & r2' & Hr1 & Hr2 & Hv1 & Hv2 & _).
  exists r1', r2'.
  split; [exact Hr1 |]. split; [exact Hr2 |].
  split; [rewrite Hv1 | rewrite Hv2]; reflexivity.
Defined.
